(** * find_trailing_fence.py: which Markdown files end with a bare code fence

    A shallow embedding of [scripts/find_trailing_fence.py].  The script
    walks the current directory with [os.walk], skips every directory whose
    path contains [.git], [node_modules] or [.venv], reads each [*.md] file
    as UTF-8 text and collects the paths whose last line strips to three
    backticks; it then prints the collected paths.

    Modelling choices.
    - A Python [str] is a list of Unicode code points ([N]); file contents
      are bytes, decoded the way [open(path, 'r', encoding='utf-8')] does
      (strict UTF-8, universal newlines).
    - The file system is a tree whose directory entries are kept in the
      order [os.scandir] returns them.  A directory may refuse to be listed
      and a file may refuse to be read; both still exist in the tree.
    - [os.walk] is followed with its defaults ([topdown=True],
      [onerror=None], [followlinks=False]) and [os.path.join] is the POSIX
      one.  Symbolic links to directories are never descended into by the
      walk and are left out of the tree.
    - Standard output is the text written by [print], before it is encoded. *)

From Stdlib Require Import List NArith Bool Arith Lia.
From Stdlib.Strings Require Ascii String Byte.
Import ListNotations String.StringSyntax.
Delimit Scope string_scope with string.

(** ** Python strings *)

Module Py.

(** A [str]: a sequence of Unicode code points. *)
Definition pystr : Type := list N.

(** An ASCII literal as a [str]. *)
Definition str (s : String.string) : pystr :=
  map Ascii.N_of_ascii (String.list_ascii_of_string s).
Arguments str s%_string.

Definition pystr_eqb (a b : pystr) : bool :=
  if list_eq_dec N.eq_dec a b then true else false.

Fixpoint startswith (s pre : pystr) {struct pre} : bool :=
  match pre, s with
  | [], _ => true
  | _ :: _, [] => false
  | p :: pre', c :: s' => N.eqb p c && startswith s' pre'
  end.

(** [sub in s] *)
Fixpoint contains (sub s : pystr) : bool :=
  startswith s sub ||
  match s with
  | [] => false
  | _ :: s' => contains sub s'
  end.

(** [s.endswith(suf)]: the last [len(suf)] code points of [s] are [suf]. *)
Definition endswith (s suf : pystr) : bool :=
  (length suf <=? length s) &&
  pystr_eqb (skipn (length s - length suf) s) suf.

(** [str.isspace] on one code point (CPython's [_PyUnicode_IsWhitespace]). *)
Definition isspace (c : N) : bool :=
  (((0x09 <=? c) && (c <=? 0x0D)) ||
  ((0x1C <=? c) && (c <=? 0x20)) ||
  (c =? 0x85) || (c =? 0xA0) || (c =? 0x1680) ||
  ((0x2000 <=? c) && (c <=? 0x200A)) ||
  (c =? 0x2028) || (c =? 0x2029) || (c =? 0x202F) || (c =? 0x205F) ||
  (c =? 0x3000))%N.

Fixpoint lstrip (s : pystr) : pystr :=
  match s with
  | [] => []
  | c :: s' => if isspace c then lstrip s' else s
  end.

Definition rstrip (s : pystr) : pystr := rev (lstrip (rev s)).

(** [s.strip()] *)
Definition strip (s : pystr) : pystr := rstrip (lstrip s).

Definition LF : N := 0x0A%N.
Definition CR : N := 0x0D%N.

(** The line boundaries of [str.splitlines] (CPython's
    [_PyUnicode_IsLinebreak]). *)
Definition is_linebreak (c : N) : bool :=
  (((0x0A <=? c) && (c <=? 0x0D)) ||
  ((0x1C <=? c) && (c <=? 0x1E)) ||
  (c =? 0x85) || (c =? 0x2028) || (c =? 0x2029))%N.

(** The scanning loop of [str.splitlines()]: [line] holds, reversed, the code
    points of the line being read; [after_cr] says that the previous code
    point was a carriage return, whose line feed (if any) belongs to the same
    boundary.  A last line without terminator is kept when it is not empty. *)
Fixpoint splitlines_from (line : pystr) (after_cr : bool) (s : pystr)
  : list pystr :=
  match s with
  | [] => match line with [] => [] | _ :: _ => [rev line] end
  | c :: s' =>
      if after_cr && (c =? LF) then splitlines_from [] false s'
      else if is_linebreak c then rev line :: splitlines_from [] (c =? CR) s'
      else splitlines_from (c :: line) false s'
  end%N.

(** [s.splitlines()] *)
Definition splitlines (s : pystr) : list pystr := splitlines_from [] false s.

Definition sep : N := 0x2F%N.

(** [os.path.join(a, b)] of [posixpath], for two arguments. *)
Definition join (a b : pystr) : pystr :=
  if startswith b [sep] then b
  else if pystr_eqb a [] || endswith a [sep] then a ++ b
  else a ++ [sep] ++ b.

End Py.
Import Py.

(** ** Exceptions *)

(** The exceptions the script can meet.  Every one of them is a subclass of
    [Exception], which is what the script's handler catches. *)
Inductive exn : Type :=
| PermissionError
| FileNotFoundError
| IsADirectoryError
| OSError
| UnicodeDecodeError
| IndexError.

(** A computation that returns a value or raises. *)
Definition result (A : Type) : Type := (exn + A)%type.

Definition ret {A : Type} (a : A) : result A := inr a.

Definition raise {A : Type} (e : exn) : result A := inl e.

Definition bind {A B : Type} (m : result A) (k : A -> result B) : result B :=
  match m with
  | inl e => inl e
  | inr a => k a
  end.

Notation "x <- m ;; k" := (bind m (fun x => k))
  (at level 61, m at next level, right associativity).

(** ** Text files *)

Module Codec.

Definition continuation (b : N) : bool := ((0x80 <=? b) && (b <=? 0xBF))%N.

Definition payload (b : N) : N := (b - 0x80)%N.

Definition surrogate (c : N) : bool := ((0xD800 <=? c) && (c <=? 0xDFFF))%N.

(** The strict UTF-8 decoder: shortest forms only, no surrogates, nothing
    above U+10FFFF. *)
Fixpoint decode_utf8 (bs : list N) : option pystr :=
  match bs with
  | [] => Some []
  | b0 :: r0 =>
      if (b0 <? 0x80)%N then option_map (cons b0) (decode_utf8 r0)
      else if ((0xC2 <=? b0) && (b0 <=? 0xDF))%N then
        match r0 with
        | b1 :: r1 =>
            if continuation b1
            then option_map (cons ((b0 - 0xC0) * 64 + payload b1)%N)
                            (decode_utf8 r1)
            else None
        | _ => None
        end
      else if ((0xE0 <=? b0) && (b0 <=? 0xEF))%N then
        match r0 with
        | b1 :: b2 :: r2 =>
            let c := ((b0 - 0xE0) * 4096 + payload b1 * 64 + payload b2)%N in
            if continuation b1 && continuation b2 &&
               (0x800 <=? c)%N && negb (surrogate c)
            then option_map (cons c) (decode_utf8 r2)
            else None
        | _ => None
        end
      else if ((0xF0 <=? b0) && (b0 <=? 0xF4))%N then
        match r0 with
        | b1 :: b2 :: b3 :: r3 =>
            let c := ((b0 - 0xF0) * 262144 + payload b1 * 4096 +
                      payload b2 * 64 + payload b3)%N in
            if continuation b1 && continuation b2 && continuation b3 &&
               (0x10000 <=? c)%N && (c <=? 0x10FFFF)%N
            then option_map (cons c) (decode_utf8 r3)
            else None
        | _ => None
        end
      else None
  end.

(** Universal newlines ([newline=None]): on input [\r\n] and a lone [\r]
    become [\n]. *)
Fixpoint universal_newlines (s : pystr) : pystr :=
  match s with
  | [] => []
  | c :: s' =>
      if (c =? CR)%N then
        match s' with
        | d :: s'' =>
            if (d =? LF)%N then LF :: universal_newlines s''
            else LF :: universal_newlines s'
        | [] => [LF]
        end
      else c :: universal_newlines s'
  end.

End Codec.

(** A non-directory entry: its bytes, or the error that opening or reading
    it raises. *)
Inductive file : Type :=
| Readable (content : list Byte.byte)
| Unreadable (e : exn).

(** The bytes of an ASCII literal. *)
Definition bytes (s : String.string) : list Byte.byte :=
  String.list_byte_of_string s.
Arguments bytes s%_string.

(** [open(path, 'r', encoding='utf-8').read()] on the file itself. *)
Definition read_text (f : file) : result pystr :=
  match f with
  | Unreadable e => raise e
  | Readable content =>
      match Codec.decode_utf8 (map Byte.to_N content) with
      | Some s => ret (Codec.universal_newlines s)
      | None => raise UnicodeDecodeError
      end
  end.

(** ** The directory tree *)

(** A directory keeps its entries in the order [os.scandir] yields them;
    [listable = false] is a directory whose [scandir] raises [OSError] (no
    read permission, say), whatever it holds. *)
#[warnings="-register-all"]
Inductive node : Type :=
| File (f : file)
| Dir (listable : bool) (entries : list (pystr * node)).

Definition is_dir (n : node) : bool :=
  match n with
  | Dir _ _ => true
  | File _ => false
  end.

Definition dirnames (es : list (pystr * node)) : list pystr :=
  map fst (filter (fun e => is_dir (snd e)) es).

Definition filenames (es : list (pystr * node)) : list pystr :=
  map fst (filter (fun e => negb (is_dir (snd e))) es).

Fixpoint assoc (k : pystr) (es : list (pystr * node)) : option node :=
  match es with
  | [] => None
  | (k', n) :: es' => if pystr_eqb k k' then Some n else assoc k es'
  end.

(** The node reached from [n] by the names [cs], one directory level each. *)
Fixpoint lookup (n : node) (cs : list pystr) : option node :=
  match cs with
  | [] => Some n
  | c :: cs' =>
      match n with
      | Dir _ es =>
          match assoc c es with
          | Some m => lookup m cs'
          | None => None
          end
      | File _ => None
      end
  end.

(** [listable n ds]: [n] and every directory below it along [ds] can be
    listed. *)
Fixpoint listable (n : node) (ds : list pystr) : bool :=
  match n with
  | Dir true es =>
      match ds with
      | [] => true
      | d :: ds' =>
          match assoc d es with
          | Some m => listable m ds'
          | None => false
          end
      end
  | _ => false
  end.

(** [s.split(c)] *)
Fixpoint split (c : N) (s : pystr) : list pystr :=
  match s with
  | [] => [[]]
  | x :: s' =>
      if (x =? c)%N then [] :: split c s'
      else match split c s' with
           | w :: ws => (x :: w) :: ws
           | [] => [[x]]
           end
  end.

(** The names a relative path goes through: empty components and [.] stay
    where they are. *)
Definition components (path : pystr) : list pystr :=
  filter (fun c => negb (pystr_eqb c [] || pystr_eqb c (str ".")))
         (split sep path).

(** [open(path, 'r', encoding='utf-8')] followed by [fh.read()], with the
    tree [fs] as current directory.  A directory is refused: for want of
    permission when it cannot be read, as a directory otherwise. *)
Definition open_read (fs : node) (path : pystr) : result pystr :=
  match lookup fs (components path) with
  | Some (File f) => read_text f
  | Some (Dir true _) => raise IsADirectoryError
  | Some (Dir false _) => raise PermissionError
  | None => raise FileNotFoundError
  end.

(** What [os.walk] yields: [(root, dirs, files)]. *)
Definition walk_item : Type := (pystr * list pystr * list pystr)%type.

(** [os.walk(top)] on the node [n] found at [top], top down.  A failing
    [scandir] is ignored ([onerror=None]) and the directory yields nothing. *)
Fixpoint walk (top : pystr) (n : node) {struct n} : list walk_item :=
  match n with
  | File _ => []
  | Dir false _ => []
  | Dir true es =>
      (top, dirnames es, filenames es) ::
      flat_map (fun e => let '(name, child) := e in
                         if is_dir child then walk (join top name) child
                         else [])
               es
  end.

(** ** The script *)

Definition fence : pystr := str "```".

(** The test of line 6 on [root]. *)
Definition excluded (root : pystr) : bool :=
  contains (str ".git") root || contains (str "node_modules") root ||
  contains (str ".venv") root.

(** [lines[-1]] *)
Definition last_line (lines : list pystr) : result pystr :=
  match lines with
  | [] => raise IndexError
  | _ :: _ => ret (last lines [])
  end.

(** Lines 12 to 16, the body of the [try]. *)
Definition try_file (fs : node) (path : pystr) (found : list pystr)
  : result (list pystr) :=
  text <- open_read fs path ;;
  let lines := splitlines text in
  hit <- (if 0 <? length lines
          then l <- last_line lines ;; ret (pystr_eqb (strip l) fence)
          else ret false) ;;
  ret (if hit then found ++ [path] else found).

(** Lines 9 to 18, one turn of the loop over [files]; every [exn] is an
    [Exception], so the handler takes them all and goes on. *)
Definition check_file (fs : node) (root : pystr) (found : list pystr)
  (f : pystr) : list pystr :=
  if endswith f (str ".md") then
    let path := join root f in
    match try_file fs path found with
    | inr found' => found'
    | inl _ => found
    end
  else found.

(** Lines 5 to 18, one turn of the loop over [os.walk('.')]. *)
Definition visit (fs : node) (found : list pystr) (item : walk_item)
  : list pystr :=
  let '(root, _, files) := item in
  if excluded root then found
  else fold_left (check_file fs root) files found.

(** Lines 3 to 18: the list [found] when the loop is over. *)
Definition scan (fs : node) : list pystr :=
  fold_left (visit fs) (walk (str ".") fs) [].

(** [print(s)] on the standard output [out]. *)
Definition print (s : pystr) (out : pystr) : pystr := out ++ s ++ [LF].

Definition no_match : pystr :=
  str "No markdown files end with a trailing fence (```).".

Definition header : pystr := str "Files with trailing fence:".

(** Lines 20 to 25. *)
Definition report (found : list pystr) : pystr :=
  match found with
  | [] => print no_match []
  | _ :: _ => fold_left (fun out p => print p out) found (print header [])
  end.

(** The whole script: the standard output of a run in the tree [fs]. *)
Definition main (fs : node) : pystr := report (scan fs).

(** ** Well-formed trees *)

(** A name [scandir] can return: not empty, not [.] or [..], without [/]
    or NUL. *)
Definition valid_name (n : pystr) : bool :=
  negb (pystr_eqb n []) && negb (pystr_eqb n (str ".")) &&
  negb (pystr_eqb n (str "..")) &&
  negb (existsb (N.eqb sep) n) && negb (existsb (N.eqb 0) n).

Fixpoint distinct (ns : list pystr) : bool :=
  match ns with
  | [] => true
  | n :: ns' => negb (existsb (pystr_eqb n) ns') && distinct ns'
  end.

(** Every directory holds valid names, each once. *)
Fixpoint wf_tree (n : node) : bool :=
  match n with
  | File _ => true
  | Dir _ es =>
      forallb valid_name (map fst es) && distinct (map fst es) &&
      forallb (fun e => let '(_, child) := e in wf_tree child) es
  end.

(** ** Example trees *)

(** A tree with a file of every kind the script tells apart. *)
Definition tree_sample : node :=
  Dir true
    [ (str "README.md", File (Readable (bytes "# Title
Some text
```")));
      (str "notes.txt", File (Readable (bytes "```")));
      (str ".git",
       Dir true [ (str "COMMIT_EDITMSG.md", File (Readable (bytes "```"))) ]);
      (str "docs",
       Dir true
         [ (str "guide.md", File (Readable (bytes "Intro
```
More text")));
           (str "pad.md", File (Readable (bytes "x
  ```  
")));
           (str "py.md", File (Readable (bytes "```python")));
           (str "empty.md", File (Readable []));
           (str "archive.venv.md", File (Readable (bytes "```")));
           (str "latin1.md",
            File (Readable (Byte.xe9 :: Byte.x0a :: bytes "```")));
           (str "locked.md", File (Unreadable PermissionError)) ]);
      (str "secret",
       Dir false [ (str "x.md", File (Readable (bytes "```"))) ])
    ].

(** A matching file in a directory that cannot be listed. *)
Definition tree_locked : node :=
  Dir true
    [ (str "secret",
       Dir false [ (str "x.md", File (Readable (bytes "```"))) ]) ].

(** A repository: [.git] and a directory below it. *)
Definition tree_git : node :=
  Dir true
    [ (str ".git",
       Dir true
         [ (str "HEAD", File (Readable (bytes "ref: refs/heads/main")));
           (str "objects",
            Dir true [ (str "x.md", File (Readable (bytes "```"))) ]) ]);
      (str "a.md", File (Readable (bytes "```"))) ].

(** Two trees that differ in a file that is not Markdown and below an
    excluded directory only. *)
Definition tree_noise_a : node :=
  Dir true
    [ (str "a.md", File (Readable (bytes "```")));
      (str "notes.txt", File (Readable (bytes "```")));
      (str ".git", Dir true [ (str "x.md", File (Readable (bytes "```"))) ]) ].

Definition tree_noise_b : node :=
  Dir true
    [ (str "a.md", File (Readable (bytes "```")));
      (str "notes.txt", File (Readable (bytes "something else")));
      (str ".git", Dir true [ (str "x.md", File (Unreadable PermissionError)) ]) ].

(** The same text with the line terminators of two platforms. *)
Definition tree_crlf : node :=
  Dir true
    [ (str "a.md",
       File (Readable (bytes "# a" ++ [Byte.x0d; Byte.x0a] ++ bytes "```" ++
                       [Byte.x0d; Byte.x0a]))) ].

Definition tree_lf : node :=
  Dir true
    [ (str "a.md",
       File (Readable (bytes "# a" ++ [Byte.x0a] ++ bytes "```" ++
                       [Byte.x0a]))) ].

(** ** Paths of the tree *)

(** The path [os.walk('.')] builds for the directory reached by the names
    [ds], and for a file when the last name is the file's. *)
Definition path_of (ds : list pystr) : pystr := fold_left join ds (str ".").

(** The same path written out: [.] and then [/name] for every name. *)
Definition render (ds : list pystr) : pystr :=
  str "." ++ flat_map (cons sep) ds.

(** ** The words of the specification *)

(** The text, split into lines, has a last line that strips to the fence. *)
Definition trailing_fence (text : pystr) : Prop :=
  splitlines text <> [] /\ strip (last (splitlines text) []) = fence.

(** The file named [f] of the directory at [ds] is a Markdown file outside
    the excluded directories whose text ends with the fence. *)
Definition matching (fs : node) (ds : list pystr) (f : pystr) : Prop :=
  exists x text,
    lookup fs (ds ++ [f]) = Some (File x) /\
    endswith f (str ".md") = true /\
    excluded (path_of ds) = false /\
    read_text x = inr text /\
    trailing_fence text.

(** The set of results in the words of the specification: the paths of the
    matching files, and nothing else. *)
Definition result_set_as_specified (fs : node) (found : list pystr) : Prop :=
  forall p,
    In p found <-> exists ds f, p = path_of (ds ++ [f]) /\ matching fs ds f.

(** The exclusion rule in the words of the specification: the traversal [w]
    enumerates no directory whose path is excluded. *)
Definition prunes (w : pystr -> node -> list walk_item) : Prop :=
  forall fs, wf_tree fs = true ->
  forall root dirs files,
    In (root, dirs, files) (w (str ".") fs) -> excluded root = false.

(** The traversal in the words of the specification: a directory whose path
    is excluded is not entered, so that neither its files nor its
    subdirectories are enumerated. *)
Fixpoint walk_pruned (top : pystr) (n : node) {struct n} : list walk_item :=
  match n with
  | File _ => []
  | Dir false _ => []
  | Dir true es =>
      if excluded top then []
      else
        (top, dirnames es, filenames es) ::
        flat_map (fun e => let '(name, child) := e in
                           if is_dir child
                           then walk_pruned (join top name) child
                           else [])
                 es
  end.

(** The loop of the script over the pruned traversal. *)
Definition scan_pruned (fs : node) : list pystr :=
  fold_left (visit fs) (walk_pruned (str ".") fs) [].

(** The two shapes of the standard output, for the list [found]. *)
Definition output_shape (found : list pystr) (out : pystr) : Prop :=
  (found = [] /\ out = no_match ++ [LF]) \/
  (found <> [] /\
   out = header ++ [LF] ++ flat_map (fun p => p ++ [LF]) found).

(** ** What the loops go through *)

(** The pairs [(root, f)] of lines 4 and 8, in the order of the two
    loops. *)
Definition entries_of (items : list walk_item) : list (pystr * pystr) :=
  flat_map (fun item => let '(root, _, files) := item in
                        map (pair root) files)
           items.

(** The path line 10 builds for each of them. *)
Definition candidates (items : list walk_item) : list pystr :=
  map (fun rf => join (fst rf) (snd rf)) (entries_of items).

(** The files the walk of [n] comes to, each as the names that lead to it
    from [n], in the order of the walk. *)
Fixpoint file_ways (n : node) : list (list pystr) :=
  match n with
  | File _ => []
  | Dir false _ => []
  | Dir true es =>
      map (fun f => [f]) (filenames es) ++
      flat_map (fun e => let '(name, child) := e in
                         if is_dir child
                         then map (cons name) (file_ways child)
                         else [])
               es
  end.

(** ** Shapes of texts *)

(** [l] has no line boundary in it. *)
Definition no_break (l : pystr) : bool :=
  forallb (fun c => negb (is_linebreak c)) l.

(** A text that is empty or ends with a line boundary: what comes after it
    starts a line. *)
Definition line_start (pfx : pystr) : Prop :=
  pfx = [] \/ exists before b, pfx = before ++ [b] /\ is_linebreak b = true.

(** * Facts about the string operations *)

Section StringFacts.

Lemma pystr_eqb_eq (a b : pystr) : pystr_eqb a b = true <-> a = b.
Proof.
  unfold pystr_eqb. destruct (list_eq_dec N.eq_dec a b); split; congruence.
Qed.

Lemma pystr_eqb_refl (a : pystr) : pystr_eqb a a = true.
Proof. now apply pystr_eqb_eq. Qed.

Lemma pystr_eqb_neq (a b : pystr) : pystr_eqb a b = false <-> a <> b.
Proof.
  unfold pystr_eqb. destruct (list_eq_dec N.eq_dec a b); split; congruence.
Qed.

Lemma startswith_spec (s pre : pystr) :
  startswith s pre = true <-> exists t, s = pre ++ t.
Proof.
  revert s. induction pre as [|p pre IH]; intros s; simpl.
  - split; [intros _; now exists s | reflexivity].
  - destruct s as [|c s].
    + split; [discriminate | intros [t H]; discriminate].
    + rewrite andb_true_iff, N.eqb_eq, IH. split.
      * intros [-> [t ->]]. now exists t.
      * intros [t H]. injection H as -> ->. split; [reflexivity | now exists t].
Qed.

Lemma contains_spec (sub s : pystr) :
  contains sub s = true <-> exists a b, s = a ++ sub ++ b.
Proof.
  induction s as [|c s IH].
  - simpl. rewrite orb_false_r, startswith_spec. split.
    + intros [t H]. now exists [], t.
    + intros [a [b H]]. destruct a; [now exists b | discriminate].
  - cbn [contains]. rewrite orb_true_iff, startswith_spec, IH. split.
    + intros [[t H] | [a [b H]]].
      * now exists [], t.
      * exists (c :: a), b. now rewrite H.
    + intros [[|x a] [b H]].
      * left. now exists b.
      * right. injection H as -> ->. now exists a, b.
Qed.

(** A string keeps the substrings of its prefixes. *)
Lemma contains_app_r (sub s t : pystr) :
  contains sub s = true -> contains sub (s ++ t) = true.
Proof.
  rewrite !contains_spec. intros [a [b ->]].
  exists a, (b ++ t). now rewrite <- !app_assoc.
Qed.

Lemma endswith_spec (s suf : pystr) :
  endswith s suf = true <-> exists a, s = a ++ suf.
Proof.
  unfold endswith. rewrite andb_true_iff, Nat.leb_le, pystr_eqb_eq. split.
  - intros [Hle Hs]. exists (firstn (length s - length suf) s).
    transitivity (firstn (length s - length suf) s ++
                  skipn (length s - length suf) s).
    + symmetry. apply firstn_skipn.
    + f_equal. exact Hs.
  - intros [a ->]. rewrite length_app. split; [lia|].
    replace (length a + length suf - length suf) with (length a + 0) by lia.
    rewrite skipn_app, Nat.add_0_r, skipn_all.
    replace (length a - length a) with 0 by lia. reflexivity.
Qed.

Lemma lstrip_spaces (ws s : pystr) :
  forallb isspace ws = true -> lstrip (ws ++ s) = lstrip s.
Proof.
  induction ws as [|w ws IH]; simpl; [reflexivity|].
  rewrite andb_true_iff. intros [-> H]. auto.
Qed.

Lemma lstrip_solid (c : N) (s : pystr) :
  isspace c = false -> lstrip (c :: s) = c :: s.
Proof. intros H. simpl. now rewrite H. Qed.

(** Stripping removes exactly the white space around a core that starts and
    ends with something else. *)
Lemma strip_padded (pre post core : pystr) (a b : N) :
  forallb isspace pre = true -> forallb isspace post = true ->
  isspace a = false -> isspace b = false ->
  strip (pre ++ (a :: core ++ [b]) ++ post) = a :: core ++ [b].
Proof.
  intros Hpre Hpost Ha Hb. unfold strip, rstrip.
  rewrite lstrip_spaces by assumption.
  replace (lstrip ((a :: core ++ [b]) ++ post))
    with (((a :: core) ++ [b]) ++ post) by (simpl; now rewrite Ha).
  rewrite !rev_app_distr, lstrip_spaces.
  - replace (lstrip (rev [b] ++ rev (a :: core)))
      with (rev [b] ++ rev (a :: core)) by (simpl; now rewrite Hb).
    rewrite <- rev_app_distr. apply rev_involutive.
  - rewrite forallb_forall in *. intros x Hx. apply Hpost.
    now apply in_rev.
Qed.

Lemma splitlines_from_nil (line : pystr) (after_cr : bool) (s : pystr) :
  splitlines_from line after_cr s = [] ->
  (line = [] /\ s = []) \/ (after_cr = true /\ s = [LF]).
Proof.
  revert line after_cr. induction s as [|c s IH]; intros line after_cr; simpl.
  - destruct line; [auto | discriminate].
  - destruct (after_cr && (c =? LF)%N) eqn:E.
    + intros H. apply IH in H. destruct H as [[_ ->] | [H _]]; [|discriminate].
      apply andb_true_iff in E. destruct E as [-> E].
      apply N.eqb_eq in E. subst c. now right.
    + destruct (is_linebreak c); [discriminate|].
      intros H. apply IH in H. destruct H as [[H _] | [H _]]; discriminate.
Qed.

(** Only the empty text has no line at all. *)
Lemma splitlines_nil (s : pystr) : splitlines s = [] <-> s = [].
Proof.
  split.
  - intros H. apply splitlines_from_nil in H.
    destruct H as [[_ H] | [H _]]; [assumption | discriminate].
  - intros ->. reflexivity.
Qed.

End StringFacts.

(** * Facts about paths *)

Section PathFacts.

Lemma valid_name_spec (n : pystr) :
  valid_name n = true ->
  n <> [] /\ n <> str "." /\ ~ In sep n.
Proof.
  unfold valid_name. rewrite !andb_true_iff, !negb_true_iff.
  intros [[[[H1 H2] _] H3] _]. repeat split.
  - now apply pystr_eqb_neq.
  - now apply pystr_eqb_neq.
  - intros Hin. assert (existsb (N.eqb sep) n = true); [|congruence].
    apply existsb_exists. exists sep. split; [assumption | apply N.eqb_refl].
Qed.

Lemma split_not_nil (c : N) (s : pystr) : split c s <> [].
Proof.
  destruct s as [|x s]; simpl; [discriminate|].
  destruct (x =? c)%N; [discriminate|]. destruct (split c s); discriminate.
Qed.

Lemma split_app (c : N) (a b : pystr) :
  split c (a ++ c :: b) = split c a ++ split c b.
Proof.
  induction a as [|x a IH]; simpl.
  - now rewrite N.eqb_refl.
  - destruct (x =? c)%N; rewrite IH; [reflexivity|].
    destruct (split c a) eqn:E; [now apply split_not_nil in E | reflexivity].
Qed.

Lemma split_whole (c : N) (s : pystr) : ~ In c s -> split c s = [s].
Proof.
  induction s as [|x s IH]; simpl; intros H; [reflexivity|].
  destruct (N.eqb_spec x c) as [->|_]; [exfalso; auto|].
  rewrite IH by tauto. reflexivity.
Qed.

Lemma split_render (s : pystr) (ds : list pystr) :
  Forall (fun d => valid_name d = true) ds ->
  split sep (s ++ flat_map (cons sep) ds) = split sep s ++ ds.
Proof.
  intros H. revert s. induction H as [|d ds Hd _ IH]; intros s; simpl.
  - now rewrite !app_nil_r.
  - change (s ++ sep :: d ++ flat_map (cons sep) ds)
      with (s ++ (sep :: d) ++ flat_map (cons sep) ds).
    rewrite app_assoc, IH, split_app, (@split_whole sep d), <- app_assoc.
    + reflexivity.
    + now apply valid_name_spec.
Qed.

(** The names of a rendered path are read back by [components]. *)
Lemma components_render (ds : list pystr) :
  Forall (fun d => valid_name d = true) ds -> components (render ds) = ds.
Proof.
  intros H. unfold components, render. rewrite split_render by assumption.
  simpl. induction H as [|d ds Hd _ IH]; simpl; [reflexivity|].
  apply valid_name_spec in Hd. destruct Hd as [H1 [H2 _]].
  apply pystr_eqb_neq in H1, H2. rewrite H1, H2. simpl. now rewrite IH.
Qed.

Lemma render_snoc (ds : list pystr) (d : pystr) :
  render (ds ++ [d]) = render ds ++ sep :: d.
Proof.
  unfold render. rewrite flat_map_app, <- app_assoc. do 2 f_equal.
  simpl. now rewrite app_nil_r.
Qed.

(** A rendered path does not end with the separator. *)
Lemma render_not_dir (ds : list pystr) :
  Forall (fun d => valid_name d = true) ds ->
  endswith (render ds) [sep] = false.
Proof.
  intros H. apply not_true_is_false. rewrite endswith_spec. intros [a Ha].
  destruct ds as [|d0 ds0] using rev_ind.
  - destruct a as [|x [|y a]]; discriminate.
  - clear IHds0. rewrite render_snoc in Ha.
    apply Forall_app in H. destruct H as [_ H]. inversion_clear H as [|? ? Hd _].
    apply valid_name_spec in Hd. destruct Hd as [Hne [_ Hsep]].
    destruct (exists_last Hne) as [d' [x ->]].
    change (render ds0 ++ sep :: d' ++ [x])
      with (render ds0 ++ (sep :: d') ++ [x]) in Ha.
    rewrite app_assoc in Ha. apply app_inj_tail in Ha. destruct Ha as [_ ->].
    apply Hsep, in_or_app. right. now left.
Qed.

Lemma render_not_empty (ds : list pystr) : render ds <> [].
Proof. discriminate. Qed.

(** On a rendered directory path and a valid name, [join] writes the
    separator and the name after the path. *)
Lemma join_render (ds : list pystr) (d : pystr) :
  Forall (fun d => valid_name d = true) ds -> valid_name d = true ->
  join (render ds) d = render (ds ++ [d]).
Proof.
  intros Hds Hd. unfold join. rewrite render_snoc.
  rewrite (render_not_dir _ Hds).
  replace (pystr_eqb (render ds) []) with false
    by (symmetry; apply pystr_eqb_neq; discriminate).
  replace (startswith d [sep]) with false; [reflexivity|].
  symmetry. apply not_true_is_false. rewrite startswith_spec. intros [t ->].
  apply valid_name_spec in Hd. destruct Hd as [_ [_ Hd]]. apply Hd. now left.
Qed.

Lemma fold_join_render (ds0 ds : list pystr) :
  Forall (fun d => valid_name d = true) ds0 ->
  Forall (fun d => valid_name d = true) ds ->
  fold_left join ds (render ds0) = render (ds0 ++ ds).
Proof.
  intros H0 H. revert ds0 H0. induction H as [|d ds Hd _ IH]; intros ds0 H0.
  - now rewrite app_nil_r.
  - simpl. rewrite join_render by assumption.
    rewrite IH by (apply Forall_app; auto).
    now rewrite <- app_assoc.
Qed.

(** The path the walk builds is the rendered one. *)
Lemma path_of_render (ds : list pystr) :
  Forall (fun d => valid_name d = true) ds -> path_of ds = render ds.
Proof. intros H. apply (@fold_join_render [] ds); auto. Qed.

Lemma components_path_of (ds : list pystr) :
  Forall (fun d => valid_name d = true) ds -> components (path_of ds) = ds.
Proof.
  intros H. rewrite path_of_render by assumption.
  now apply components_render.
Qed.

Lemma path_of_snoc (ds : list pystr) (f : pystr) :
  path_of (ds ++ [f]) = join (path_of ds) f.
Proof. unfold path_of. now rewrite fold_left_app. Qed.

(** The path of a directory is a prefix of the path of everything below. *)
Lemma path_of_prefix (ds rest : list pystr) :
  Forall (fun d => valid_name d = true) (ds ++ rest) ->
  exists t, path_of (ds ++ rest) = path_of ds ++ t.
Proof.
  intros H. pose proof H as H'. apply Forall_app in H'. destruct H' as [Hds _].
  rewrite !path_of_render by assumption.
  unfold render. rewrite flat_map_app, app_assoc. eauto.
Qed.

Lemma excluded_app (p t : pystr) :
  excluded p = true -> excluded (p ++ t) = true.
Proof.
  unfold excluded. rewrite !orb_true_iff.
  intros [[H | H] | H]; eauto using contains_app_r.
Qed.

End PathFacts.

(** * Facts about trees and the walk *)

Section TreeFacts.

(** Induction on a tree, with the hypothesis for every entry of a
    directory. *)
Lemma node_rect_entries (P : node -> Prop) :
  (forall f, P (File f)) ->
  (forall l es, Forall (fun e => P (snd e)) es -> P (Dir l es)) ->
  forall n, P n.
Proof.
  intros HF HD. fix rec 1. intros [f | l es].
  - apply HF.
  - apply HD. induction es as [|[k c] es IH]; constructor.
    + apply rec.
    + exact IH.
Qed.

Lemma distinct_NoDup (ns : list pystr) : distinct ns = true -> NoDup ns.
Proof.
  induction ns as [|n ns IH]; simpl; [constructor|].
  rewrite andb_true_iff, negb_true_iff. intros [H1 H2].
  constructor; [|auto]. intros Hin.
  assert (existsb (pystr_eqb n) ns = true); [|congruence].
  apply existsb_exists. exists n. split; [assumption | apply pystr_eqb_refl].
Qed.

Lemma wf_tree_dir (l : bool) (es : list (pystr * node)) :
  wf_tree (Dir l es) = true ->
  Forall (fun d => valid_name d = true) (map fst es) /\
  NoDup (map fst es) /\
  (forall k c, In (k, c) es -> wf_tree c = true).
Proof.
  simpl. rewrite !andb_true_iff. intros [[H1 H2] H3]. repeat split.
  - apply Forall_forall. now apply forallb_forall.
  - now apply distinct_NoDup.
  - intros k c Hin. rewrite forallb_forall in H3. apply (H3 (k, c) Hin).
Qed.

Lemma assoc_in (k : pystr) (es : list (pystr * node)) (n : node) :
  assoc k es = Some n -> In (k, n) es.
Proof.
  induction es as [|[k' c] es IH]; simpl; [discriminate|].
  destruct (pystr_eqb k k') eqn:E.
  - apply pystr_eqb_eq in E. intros [= ->]. subst. now left.
  - auto.
Qed.

Lemma in_assoc (k : pystr) (es : list (pystr * node)) (n : node) :
  NoDup (map fst es) -> In (k, n) es -> assoc k es = Some n.
Proof.
  induction es as [|[k' c] es IH]; simpl; [tauto|].
  intros Hnd [H | H].
  - injection H as -> ->. now rewrite pystr_eqb_refl.
  - inversion_clear Hnd as [|? ? Hk Hnd'].
    destruct (pystr_eqb k k') eqn:E; [|auto].
    apply pystr_eqb_eq in E. subst k'. exfalso. apply Hk.
    apply (in_map fst) in H. exact H.
Qed.

Lemma lookup_app (n : node) (a b : list pystr) :
  lookup n (a ++ b) =
  match lookup n a with
  | Some m => lookup m b
  | None => None
  end.
Proof.
  revert n. induction a as [|c a IH]; intros n; simpl; [reflexivity|].
  destruct n as [f | l es]; [reflexivity|].
  destruct (assoc c es); [apply IH | reflexivity].
Qed.

(** What is found in a well-formed tree is well formed, and found by valid
    names. *)
Lemma lookup_wf (n m : node) (cs : list pystr) :
  wf_tree n = true -> lookup n cs = Some m ->
  wf_tree m = true /\ Forall (fun d => valid_name d = true) cs.
Proof.
  revert n. induction cs as [|c cs IH]; intros n Hwf; simpl.
  - intros [= ->]. auto.
  - destruct n as [f | l es]; [discriminate|].
    destruct (assoc c es) as [k|] eqn:E; [|discriminate].
    intros H. apply assoc_in in E.
    apply wf_tree_dir in Hwf. destruct Hwf as [Hv [_ Hc]].
    destruct (IH k (Hc _ _ E) H) as [H1 H2]. split; [assumption|].
    constructor; [|assumption].
    rewrite Forall_forall in Hv. apply Hv. apply (in_map fst) in E. exact E.
Qed.

Lemma listable_dir (n : node) (ds : list pystr) :
  listable n ds = true -> exists es, n = Dir true es.
Proof. destruct ds, n as [f | [|] es]; try discriminate; eauto. Qed.

(** Where every directory on the way can be listed, the end of the way is
    a directory that can be listed. *)
Lemma listable_lookup (n : node) (ds : list pystr) :
  listable n ds = true -> exists es, lookup n ds = Some (Dir true es).
Proof.
  revert n. induction ds as [|d ds IH]; intros n H.
  - destruct (listable_dir _ _ H) as [es ->]. now exists es.
  - destruct (listable_dir _ _ H) as [es ->]. simpl in *.
    destruct (assoc d es); [auto | discriminate].
Qed.

(** The walk yields one item for each directory that can be reached through
    listable directories, with the path [join] builds on the way. *)
Lemma walk_spec (n : node) :
  wf_tree n = true ->
  forall top root dirs files,
    In (root, dirs, files) (walk top n) <->
    exists ds es,
      listable n ds = true /\ lookup n ds = Some (Dir true es) /\
      root = fold_left join ds top /\
      dirs = dirnames es /\ files = filenames es.
Proof.
  induction n as [f | l es0 IH] using node_rect_entries; intros Hwf top root dirs files.
  - simpl. split; [tauto|]. intros [ds [es [H _]]].
    apply listable_dir in H. destruct H as [? H]. discriminate.
  - destruct l; cycle 1.
    { simpl. split; [tauto|]. intros [ds [es [H _]]].
      apply listable_dir in H. destruct H as [? H]. discriminate. }
    apply wf_tree_dir in Hwf. destruct Hwf as [_ [Hnd Hc]].
    rewrite Forall_forall in IH. cbn [walk]. split.
    + intros [H | H].
      * injection H as <- <- <-. exists [], es0. auto.
      * apply in_flat_map in H. destruct H as [[name child] [Hin H]].
        destruct (is_dir child); [|contradiction].
        apply (IH _ Hin (Hc _ _ Hin)) in H.
        destruct H as [ds [es [H1 [H2 [H3 [H4 H5]]]]]].
        exists (name :: ds), es. simpl.
        simpl in H1, H2. rewrite (in_assoc _ _ _ Hnd Hin). auto.
    + intros [[|d ds] [es [H1 [H2 [H3 [H4 H5]]]]]].
      * left. simpl in *. injection H2 as ->. congruence.
      * right. simpl in *. destruct (assoc d es0) as [m|] eqn:E; [|discriminate].
        apply assoc_in in E. apply in_flat_map. exists (d, m). split; [assumption|].
        destruct (listable_dir _ _ H1) as [es' ->]. simpl.
        apply (IH _ E (Hc _ _ E)). exists ds, es. auto.
Qed.

(** In a listed directory the names in [files] are the entries that are
    files. *)
Lemma filenames_spec (es : list (pystr * node)) (f : pystr) :
  NoDup (map fst es) ->
  In f (filenames es) <-> exists x, assoc f es = Some (File x).
Proof.
  intros Hnd. unfold filenames. rewrite in_map_iff. split.
  - intros [[k c] [Hk Hin]]. simpl in Hk. subst k.
    apply filter_In in Hin. destruct Hin as [Hin Hc].
    destruct c as [x | l es']; [|discriminate].
    exists x. now apply in_assoc.
  - intros [x H]. apply assoc_in in H. exists (f, File x).
    split; [reflexivity|]. apply filter_In. auto.
Qed.

End TreeFacts.

(** * Facts about the scan *)

Section ScanFacts.

Variable fs : node.

Lemma try_file_spec (path : pystr) (found : list pystr) :
  match open_read fs path with
  | inl e => try_file fs path found = inl e
  | inr text =>
      (trailing_fence text /\ try_file fs path found = inr (found ++ [path])) \/
      (~ trailing_fence text /\ try_file fs path found = inr found)
  end.
Proof.
  unfold try_file, trailing_fence.
  destruct (open_read fs path) as [e | text]; simpl; [reflexivity|].
  destruct (splitlines text) as [|l ls] eqn:E.
  - right. simpl. split; [intros [H _]; now apply H | reflexivity].
  - cbn [length Nat.ltb Nat.leb last_line bind ret].
    destruct (pystr_eqb (strip (last (l :: ls) [])) fence) eqn:Ef.
    + left. apply pystr_eqb_eq in Ef. repeat split; auto. discriminate.
    + right. apply pystr_eqb_neq in Ef. split; [tauto | reflexivity].
Qed.

(** The guard of line 15 keeps [lines[-1]] from raising: the body of the
    [try] raises only what opening and reading raise. *)
Lemma try_file_raises (path : pystr) (found : list pystr) (e : exn) :
  try_file fs path found = inl e -> open_read fs path = inl e.
Proof.
  pose proof (try_file_spec path found) as H.
  destruct (open_read fs path) as [e' | text].
  - congruence.
  - destruct H as [[_ H] | [_ H]]; rewrite H; discriminate.
Qed.

Lemma check_file_app (root : pystr) (found : list pystr) (f : pystr) :
  check_file fs root found f = found ++ check_file fs root [] f.
Proof.
  unfold check_file. destruct (endswith f (str ".md")); [|now rewrite app_nil_r].
  pose proof (try_file_spec (join root f) found) as H.
  pose proof (try_file_spec (join root f) []) as H0.
  destruct (open_read fs (join root f)) as [e | text].
  - rewrite H, H0. now rewrite app_nil_r.
  - destruct H as [[Ht H] | [Ht H]], H0 as [[Ht0 H0] | [Ht0 H0]];
      try tauto; rewrite H, H0; [reflexivity | now rewrite app_nil_r].
Qed.

Lemma check_file_spec (root f p : pystr) :
  In p (check_file fs root [] f) <->
  endswith f (str ".md") = true /\ p = join root f /\
  exists text, open_read fs p = inr text /\ trailing_fence text.
Proof.
  unfold check_file. destruct (endswith f (str ".md")).
  - pose proof (try_file_spec (join root f) []) as H.
    destruct (open_read fs (join root f)) as [e | text] eqn:E.
    + rewrite H. split; [contradiction|].
      intros [_ [-> [text [Ht _]]]]. congruence.
    + destruct H as [[Ht H] | [Ht H]]; rewrite H; simpl.
      * split.
        -- intros [<- | []]. repeat split. now exists text.
        -- intros [_ [-> _]]. now left.
      * split; [contradiction|].
        intros [_ [-> [text' [Ht' Hf]]]]. congruence.
  - split; [contradiction | intros [H _]; discriminate].
Qed.

Lemma fold_check_file (root : pystr) (files found : list pystr) :
  fold_left (check_file fs root) files found =
  found ++ flat_map (check_file fs root []) files.
Proof.
  revert found. induction files as [|f files IH]; intros found; simpl.
  - now rewrite app_nil_r.
  - rewrite IH, check_file_app, <- app_assoc. reflexivity.
Qed.

Lemma visit_app (found : list pystr) (item : walk_item) :
  visit fs found item = found ++ visit fs [] item.
Proof.
  destruct item as [[root dirs] files]. unfold visit.
  destruct (excluded root); [now rewrite app_nil_r|].
  now rewrite fold_check_file, (fold_check_file root files []).
Qed.

Lemma fold_visit (items : list walk_item) (found : list pystr) :
  fold_left (visit fs) items found = found ++ flat_map (visit fs []) items.
Proof.
  revert found. induction items as [|i items IH]; intros found; simpl.
  - now rewrite app_nil_r.
  - rewrite IH, visit_app, <- app_assoc. reflexivity.
Qed.

Lemma visit_spec (root : pystr) (dirs files : list pystr) (p : pystr) :
  In p (visit fs [] (root, dirs, files)) <->
  excluded root = false /\
  exists f, In f files /\ In p (check_file fs root [] f).
Proof.
  unfold visit. destruct (excluded root).
  - split; [contradiction | intros [H _]; discriminate].
  - rewrite fold_check_file. simpl. rewrite in_flat_map. tauto.
Qed.

(** The list [found] is, directory after directory in the order of the
    walk, what each file adds in the order of the listing. *)
Lemma scan_flat : scan fs = flat_map (visit fs []) (walk (str ".") fs).
Proof. unfold scan. now rewrite fold_visit. Qed.

Hypothesis Hwf : wf_tree fs = true.

(** The path the scan opens for a file leads to that file. *)
Lemma open_read_path_of (cs : list pystr) (x : file) :
  lookup fs cs = Some (File x) -> open_read fs (path_of cs) = read_text x.
Proof.
  intros H. unfold open_read.
  destruct (lookup_wf _ _ _ Hwf H) as [_ Hv].
  now rewrite components_path_of, H.
Qed.

(** The paths in [found]: the Markdown files with a trailing fence, in
    directories that are not excluded and that the walk can list all the way
    down from the top. *)
Lemma scan_spec (p : pystr) :
  In p (scan fs) <->
  exists ds f,
    p = path_of (ds ++ [f]) /\ listable fs ds = true /\ matching fs ds f.
Proof.
  rewrite scan_flat, in_flat_map. split.
  - intros [[[root dirs] files] [Hw Hv]].
    apply (walk_spec _ Hwf) in Hw.
    destruct Hw as [ds [es [Hl [Hd [-> [-> ->]]]]]].
    apply visit_spec in Hv. destruct Hv as [Hx [f [Hf Hp]]].
    apply check_file_spec in Hp. destruct Hp as [Hmd [-> [text [Ho Ht]]]].
    destruct (lookup_wf _ _ _ Hwf Hd) as [Hwd _].
    apply wf_tree_dir in Hwd. destruct Hwd as [_ [Hnd _]].
    apply (filenames_spec _ _ Hnd) in Hf. destruct Hf as [x Hf].
    assert (Hlk : lookup fs (ds ++ [f]) = Some (File x)).
    { rewrite lookup_app, Hd. simpl. now rewrite Hf. }
    exists ds, f. rewrite path_of_snoc. repeat split; [assumption|].
    exists x, text. repeat split; try assumption; try apply Ht.
    rewrite <- (open_read_path_of _ _ Hlk), path_of_snoc. exact Ho.
  - intros [ds [f [-> [Hl [x [text [Hlk [Hmd [Hx [Hr Ht]]]]]]]]]].
    destruct (listable_lookup _ _ Hl) as [es Hd].
    exists (path_of ds, dirnames es, filenames es). split.
    + apply (walk_spec _ Hwf). exists ds, es. auto.
    + apply visit_spec. split; [assumption|]. exists f.
      destruct (lookup_wf _ _ _ Hwf Hd) as [Hwd _].
      apply wf_tree_dir in Hwd. destruct Hwd as [_ [Hnd _]].
      rewrite lookup_app, Hd in Hlk. simpl in Hlk.
      destruct (assoc f es) as [m|] eqn:E; [|discriminate].
      injection Hlk as ->. split.
      * apply (filenames_spec _ _ Hnd). now exists x.
      * apply check_file_spec. rewrite <- path_of_snoc.
        repeat split; [assumption|]. exists text. split; [|assumption].
        rewrite (open_read_path_of (ds ++ [f]) x); [assumption|].
        rewrite lookup_app, Hd. simpl. now rewrite E.
Qed.

End ScanFacts.

(** * Facts about single files, subtrees and the output *)

Section MemberFacts.

Variable fs : node.
Hypothesis Hwf : wf_tree fs = true.

Lemma path_of_inj (cs1 cs2 : list pystr) :
  Forall (fun d => valid_name d = true) cs1 ->
  Forall (fun d => valid_name d = true) cs2 ->
  path_of cs1 = path_of cs2 -> cs1 = cs2.
Proof.
  intros H1 H2 H. apply (f_equal components) in H.
  now rewrite !components_path_of in H.
Qed.

(** Whether one given file of the tree is in [found]. *)
Lemma scan_member (ds : list pystr) (f : pystr) (x : file) :
  lookup fs (ds ++ [f]) = Some (File x) ->
  In (path_of (ds ++ [f])) (scan fs) <->
  listable fs ds = true /\ endswith f (str ".md") = true /\
  excluded (path_of ds) = false /\
  exists text, read_text x = inr text /\ trailing_fence text.
Proof.
  intros Hlk. rewrite (scan_spec _ Hwf). split.
  - intros [ds' [f' [Hp [Hl [x' [text [Hlk' [Hmd [Hx [Hr Ht]]]]]]]]]].
    destruct (lookup_wf _ _ _ Hwf Hlk) as [_ Hv].
    destruct (lookup_wf _ _ _ Hwf Hlk') as [_ Hv'].
    apply (path_of_inj _ _ Hv Hv') in Hp.
    apply app_inj_tail in Hp. destruct Hp as [<- <-].
    rewrite Hlk in Hlk'. injection Hlk' as <-.
    repeat split; try assumption. now exists text.
  - intros [Hl [Hmd [Hx [text [Hr Ht]]]]].
    exists ds, f. repeat split; try assumption. now exists x, text.
Qed.

Lemma listable_app (n : node) (a b : list pystr) :
  listable n (a ++ b) = true -> listable n a = true.
Proof.
  revert n. induction a as [|d a IH]; intros n H.
  - destruct (listable_dir _ _ H) as [es ->]. reflexivity.
  - destruct (listable_dir _ _ H) as [es ->]. simpl in *.
    destruct (assoc d es); [auto | discriminate].
Qed.

(** A path in [found] lies below listable directories that are not
    excluded, all the way up. *)
Lemma scan_under (ds rest : list pystr) (x : file) :
  lookup fs (ds ++ rest) = Some (File x) ->
  rest <> [] ->
  In (path_of (ds ++ rest)) (scan fs) ->
  listable fs ds = true /\ excluded (path_of ds) = false.
Proof.
  intros Hlk Hne Hin.
  destruct rest as [|r0 rest0 _] using rev_ind; [contradiction|].
  rewrite app_assoc in Hlk, Hin.
  apply (scan_member _ _ _ Hlk) in Hin. destruct Hin as [Hl [_ [Hx _]]].
  split.
  - now apply listable_app in Hl.
  - destruct (excluded (path_of ds)) eqn:E; [|reflexivity].
    destruct (lookup_wf _ _ _ Hwf Hlk) as [_ Hv].
    apply Forall_app in Hv. destruct Hv as [Hv _].
    destruct (path_of_prefix _ _ Hv) as [t Ht].
    rewrite Ht, (excluded_app _ t E) in Hx. discriminate.
Qed.

End MemberFacts.

Section OutputFacts.

Lemma fold_print (found : list pystr) (out : pystr) :
  fold_left (fun out p => print p out) found out =
  out ++ flat_map (fun p => p ++ [LF]) found.
Proof.
  revert out. induction found as [|p found IH]; intros out; simpl.
  - now rewrite app_nil_r.
  - rewrite IH. unfold print. now rewrite <- !app_assoc.
Qed.

Lemma report_shape (found : list pystr) : output_shape found (report found).
Proof.
  destruct found as [|p found].
  - left. split; reflexivity.
  - right. split; [discriminate|].
    unfold report. rewrite fold_print.
    change (print header []) with (header ++ [LF]).
    now rewrite <- app_assoc.
Qed.

End OutputFacts.

Section PrunedFacts.

(** What one turn of the loop adds, for any loop body [g] that adds
    nothing in an excluded directory. *)
Variable g : walk_item -> list pystr.
Hypothesis g_excluded :
  forall root dirs files, excluded root = true -> g (root, dirs, files) = [].

Lemma flat_map_nested {A B C : Type} (h : B -> list C) (k : A -> list B)
  (l : list A) :
  flat_map h (flat_map k l) = flat_map (fun a => flat_map h (k a)) l.
Proof.
  induction l as [|a l IH]; simpl; [reflexivity|].
  now rewrite flat_map_app, IH.
Qed.

Lemma flat_map_all_nil {A B : Type} (h : A -> list B) (l : list A) :
  (forall a, In a l -> h a = []) -> flat_map h l = [].
Proof.
  induction l as [|a l IH]; simpl; intros H; [reflexivity|].
  rewrite (H a) by now left. apply IH. intros b Hb. apply H. now right.
Qed.

Lemma flat_map_same_in {A B : Type} (h k : A -> list B) (l : list A) :
  (forall a, In a l -> h a = k a) -> flat_map h l = flat_map k l.
Proof.
  induction l as [|a l IH]; simpl; intros H; [reflexivity|].
  rewrite (H a) by now left. f_equal. apply IH. intros b Hb. apply H. now right.
Qed.

(** Below an excluded directory every path is excluded, and the loop adds
    nothing. *)
Lemma walk_excluded (n : node) :
  wf_tree n = true ->
  forall ds, Forall (fun d => valid_name d = true) ds ->
  excluded (render ds) = true ->
  flat_map g (walk (render ds) n) = [].
Proof.
  induction n as [f | l es IH] using node_rect_entries; intros Hwf ds Hds Hx.
  - reflexivity.
  - destruct l; [|reflexivity]. cbn [walk flat_map].
    rewrite (g_excluded _ _ _ Hx), flat_map_nested. simpl.
    apply wf_tree_dir in Hwf. destruct Hwf as [Hv [_ Hc]].
    rewrite Forall_forall in IH, Hv.
    apply flat_map_all_nil. intros [name child] Hin.
    destruct (is_dir child); [|reflexivity].
    assert (Hn : valid_name name = true)
      by (apply Hv; apply (in_map fst) in Hin; exact Hin).
    rewrite join_render by assumption.
    apply (IH _ Hin (Hc _ _ Hin)).
    + apply Forall_app. auto.
    + rewrite render_snoc. now apply excluded_app.
Qed.

(** The loop over the walk and the loop over the pruned traversal add the
    same paths in the same order. *)
Lemma walk_pruned_same (n : node) :
  wf_tree n = true ->
  forall ds, Forall (fun d => valid_name d = true) ds ->
  flat_map g (walk (render ds) n) = flat_map g (walk_pruned (render ds) n).
Proof.
  induction n as [f | l es IH] using node_rect_entries; intros Hwf ds Hds.
  - reflexivity.
  - destruct l; [|reflexivity].
    destruct (excluded (render ds)) eqn:Hx.
    + rewrite (walk_excluded _ Hwf _ Hds Hx). cbn [walk_pruned].
      now rewrite Hx.
    + cbn [walk walk_pruned]. rewrite Hx. cbn [flat_map]. f_equal.
      rewrite !flat_map_nested.
      apply wf_tree_dir in Hwf. destruct Hwf as [Hv [_ Hc]].
      rewrite Forall_forall in IH, Hv.
      apply flat_map_same_in. intros [name child] Hin.
      destruct (is_dir child); [|reflexivity].
      assert (Hn : valid_name name = true)
        by (apply Hv; apply (in_map fst) in Hin; exact Hin).
      rewrite join_render by assumption.
      apply (IH _ Hin (Hc _ _ Hin)). apply Forall_app. auto.
Qed.

End PrunedFacts.

(** The pruned traversal is one that enumerates no excluded directory. *)
Lemma walk_pruned_prunes : prunes walk_pruned.
Proof.
  intros fs _. generalize (str "."). 
  induction fs as [f | l es IH] using node_rect_entries;
    intros top root dirs files; [intros []|].
  destruct l; [|intros []]. cbn [walk_pruned].
  destruct (excluded top) eqn:Hx; [intros []|]. intros [H | H].
  - injection H as <- _ _. exact Hx.
  - apply in_flat_map in H. destruct H as [[name child] [Hin H]].
    destruct (is_dir child); [|contradiction].
    rewrite Forall_forall in IH. exact (IH _ Hin _ _ _ _ H).
Qed.

(** * Runs on the example trees *)

Section Runs.

Example splitlines_terminated :
  splitlines (str "a
b
") = [str "a"; str "b"].
Proof. reflexivity. Qed.

Example splitlines_blank_last :
  splitlines (str "```

") = [str "```"; []].
Proof. reflexivity. Qed.

Example splitlines_crlf :
  splitlines [97; 13; 10; 98; 13; 13; 10]%N = [[97]; [98]; []]%N.
Proof. reflexivity. Qed.

Example strip_inner_space : strip (str "  a b  ") = str "a b".
Proof. reflexivity. Qed.

Example join_top : join (str ".") (str "docs") = str "./docs".
Proof. reflexivity. Qed.

Example join_absolute : join (str "./docs") (str "/etc") = str "/etc".
Proof. reflexivity. Qed.

Example endswith_case : endswith (str "README.MD") (str ".md") = false.
Proof. reflexivity. Qed.

Example excluded_github : excluded (str "./.github/workflows") = true.
Proof. reflexivity. Qed.

Example decode_two_bytes :
  Codec.decode_utf8 [0xC3; 0xA9]%N = Some [0xE9%N].
Proof. reflexivity. Qed.

Example decode_overlong : Codec.decode_utf8 [0xC0; 0x80]%N = None.
Proof. reflexivity. Qed.

Example decode_surrogate : Codec.decode_utf8 [0xED; 0xA0; 0x80]%N = None.
Proof. reflexivity. Qed.

Example read_text_crlf :
  read_text (Readable (bytes "a" ++ [Byte.x0d; Byte.x0a] ++ bytes "```"))
  = inr (str "a
```").
Proof. reflexivity. Qed.

Example scan_tree_sample :
  scan tree_sample =
  [str "./README.md"; str "./docs/pad.md"; str "./docs/archive.venv.md"].
Proof. vm_compute. reflexivity. Qed.

Example main_tree_git :
  main tree_git = str "Files with trailing fence:
./a.md
".
Proof. vm_compute. reflexivity. Qed.

Example main_tree_locked :
  main tree_locked =
  str "No markdown files end with a trailing fence (```).
".
Proof. vm_compute. reflexivity. Qed.

End Runs.

(** * The claims *)

(** C1, as stated, fails: in [tree_locked] the file [./secret/x.md] has a
    name that ends in [.md], a containing directory that is not excluded and
    a text whose last line is the fence, and it is not in the list of
    results, because its directory cannot be listed and the walk passes it
    over. *)
Lemma unlisted_match_not_found :
  wf_tree tree_locked = true /\
  matching tree_locked [str "secret"] (str "x.md") /\
  scan tree_locked = [] /\
  ~ result_set_as_specified tree_locked (scan tree_locked).
Proof.
  assert (Hm : matching tree_locked [str "secret"] (str "x.md")).
  { exists (Readable (bytes "```")), (str "```").
    repeat split; try reflexivity. discriminate. }
  repeat split; try reflexivity; [exact Hm|].
  intros H. apply (H (path_of ([str "secret"] ++ [str "x.md"]))).
  exists [str "secret"], (str "x.md"). split; [reflexivity | exact Hm].
Qed.

(** C1 (amended): for every well-formed tree, the list of results holds
    exactly the paths of the files whose name ends in [.md], whose directory
    is not excluded and can be listed together with every directory above
    it, and whose text, split into lines, has a last line that strips to
    the fence. *)
Theorem scan_result_set (fs : node) :
  wf_tree fs = true ->
  forall p,
    In p (scan fs) <->
    exists ds f,
      p = path_of (ds ++ [f]) /\ listable fs ds = true /\ matching fs ds f.
Proof. intros Hwf p. now apply scan_spec. Qed.

(** The equivalence at [tree_sample] and [./docs/pad.md]. *)
Lemma scan_result_set_witness :
  In (str "./docs/pad.md") (scan tree_sample) <->
  exists ds f,
    str "./docs/pad.md" = path_of (ds ++ [f]) /\
    listable tree_sample ds = true /\ matching tree_sample ds f.
Proof.
  refine (scan_result_set tree_sample _ (str "./docs/pad.md")).
  vm_compute; reflexivity.
Defined.

(** C2, as stated, fails: the walk is not pruned.  In [tree_git] it
    enumerates the files and the subdirectories of [./.git] and goes on into
    [./.git/objects]. *)
Lemma walk_enters_excluded :
  wf_tree tree_git = true /\
  excluded (str "./.git") = true /\
  In (str "./.git", [str "objects"], [str "HEAD"]) (walk (str ".") tree_git) /\
  In (str "./.git/objects", [], [str "x.md"]) (walk (str ".") tree_git) /\
  ~ prunes walk.
Proof.
  repeat split; try reflexivity.
  - right. left. reflexivity.
  - right. right. left. reflexivity.
  - intros H.
    assert (E : excluded (str "./.git") = false).
    { apply (H tree_git eq_refl _ [str "objects"] [str "HEAD"]).
      right. left. reflexivity. }
    discriminate E.
Qed.

(** C2 (amended): for every directory whose path is excluded, the turn of
    the loop for it leaves the results as they are, and no file below it,
    at any depth, is in the list of results, whatever its content. *)
Theorem excluded_directory_skipped (fs : node) (ds : list pystr) :
  wf_tree fs = true ->
  excluded (path_of ds) = true ->
  (forall found dirs files,
      visit fs found (path_of ds, dirs, files) = found) /\
  (forall rest x,
      rest <> [] ->
      lookup fs (ds ++ rest) = Some (File x) ->
      ~ In (path_of (ds ++ rest)) (scan fs)).
Proof.
  intros Hwf Hx. split.
  - intros found dirs files. unfold visit. now rewrite Hx.
  - intros rest x Hne Hlk Hin.
    destruct (scan_under _ Hwf _ _ _ Hlk Hne Hin) as [_ H]. congruence.
Qed.

(** In [tree_git] the file below [./.git/objects] is not found. *)
Lemma excluded_directory_skipped_witness :
  ~ In (path_of ([str ".git"] ++ [str "objects"; str "x.md"])) (scan tree_git).
Proof.
  refine (proj2 (excluded_directory_skipped tree_git [str ".git"] _ _)
                [str "objects"; str "x.md"] (Readable (bytes "```")) _ _).
  - vm_compute; reflexivity.
  - vm_compute; reflexivity.
  - discriminate.
  - vm_compute; reflexivity.
Defined.

(** C3: a file that cannot be read (whatever [open] or [read] raises, a
    decoding error included) is not in the list of results; its turn of the
    loop leaves the list as it is and the loop goes on; every matching file
    is reported all the same; and the output is one of the two shapes, with
    nothing else in it. *)
Theorem read_failure_skipped (fs : node) (ds : list pystr) (f : pystr)
  (x : file) (e : exn) :
  wf_tree fs = true ->
  lookup fs (ds ++ [f]) = Some (File x) ->
  read_text x = inl e ->
  ~ In (path_of (ds ++ [f])) (scan fs) /\
  (forall found, check_file fs (path_of ds) found f = found) /\
  (forall ds' f',
      listable fs ds' = true -> matching fs ds' f' ->
      In (path_of (ds' ++ [f'])) (scan fs)) /\
  output_shape (scan fs) (main fs).
Proof.
  intros Hwf Hlk He. repeat split.
  - intros Hin. apply (scan_member _ Hwf _ _ _ Hlk) in Hin.
    destruct Hin as [_ [_ [_ [text [Ht _]]]]]. congruence.
  - intros found. unfold check_file.
    destruct (endswith f (str ".md")); [|reflexivity].
    pose proof (try_file_spec fs (join (path_of ds) f) found) as H.
    rewrite <- path_of_snoc, (open_read_path_of _ Hwf _ _ Hlk), He in H.
    rewrite <- path_of_snoc. now rewrite H.
  - intros ds' f' Hl Hm. apply (scan_spec _ Hwf). now exists ds', f'.
  - apply report_shape.
Qed.

(** In [tree_sample] the file without read permission and the file that is
    not UTF-8 are both passed over. *)
Lemma read_failure_skipped_witness :
  ~ In (path_of ([str "docs"] ++ [str "locked.md"])) (scan tree_sample) /\
  ~ In (path_of ([str "docs"] ++ [str "latin1.md"])) (scan tree_sample).
Proof.
  split.
  - refine (proj1 (read_failure_skipped tree_sample [str "docs"]
                     (str "locked.md") (Unreadable PermissionError)
                     PermissionError _ _ _));
      vm_compute; reflexivity.
  - refine (proj1 (read_failure_skipped tree_sample [str "docs"]
                     (str "latin1.md")
                     (Readable (Byte.xe9 :: Byte.x0a :: bytes "```"))
                     UnicodeDecodeError _ _ _));
      vm_compute; reflexivity.
Defined.

(** C4: the standard output is the line of [no_match] alone when the list
    of results is empty, and otherwise the header line followed by one line
    for each path of the list, in the order of the list, which is the order
    of the walk and, in a directory, of its listing. *)
Theorem main_output_shape (fs : node) :
  output_shape (scan fs) (main fs) /\
  scan fs = flat_map (visit fs []) (walk (str ".") fs).
Proof. split; [apply report_shape | apply scan_flat]. Qed.

(** C5: for a Markdown file that the scan reads and that has at least one
    line, being in the list of results is the same as having a last line
    that strips to the fence: with white space around the fence the file is
    in, with a language tag after it the file is out. *)
Theorem fence_check_strips (fs : node) (ds : list pystr) (f : pystr)
  (x : file) (text : pystr) :
  wf_tree fs = true ->
  listable fs ds = true ->
  lookup fs (ds ++ [f]) = Some (File x) ->
  endswith f (str ".md") = true ->
  excluded (path_of ds) = false ->
  read_text x = inr text ->
  splitlines text <> [] ->
  (In (path_of (ds ++ [f])) (scan fs) <->
   strip (last (splitlines text) []) = fence) /\
  (forall pre post,
      forallb isspace pre = true -> forallb isspace post = true ->
      last (splitlines text) [] = pre ++ fence ++ post ->
      In (path_of (ds ++ [f])) (scan fs)) /\
  (last (splitlines text) [] = str "```python" ->
   ~ In (path_of (ds ++ [f])) (scan fs)).
Proof.
  intros Hwf Hl Hlk Hmd Hx Hr Hne.
  assert (Hiff : In (path_of (ds ++ [f])) (scan fs) <->
                 strip (last (splitlines text) []) = fence).
  { rewrite (scan_member _ Hwf _ _ _ Hlk). split.
    - intros [_ [_ [_ [text' [Hr' [_ Hf]]]]]]. congruence.
    - intros Hf. repeat split; try assumption.
      exists text. repeat split; assumption. }
  split; [exact Hiff|]. split.
  - intros pre post Hpre Hpost Hlast. apply Hiff. rewrite Hlast.
    apply (strip_padded pre post [96%N] 96%N 96%N); auto.
  - intros Hlast Hin. apply Hiff in Hin. rewrite Hlast in Hin.
    vm_compute in Hin. discriminate Hin.
Qed.

(** In [tree_sample] the padded fence is found and the tagged fence is not. *)
Lemma fence_check_strips_witness :
  In (path_of ([str "docs"] ++ [str "pad.md"])) (scan tree_sample) /\
  ~ In (path_of ([str "docs"] ++ [str "py.md"])) (scan tree_sample).
Proof.
  split.
  - refine (proj1 (proj2 (fence_check_strips tree_sample [str "docs"]
                            (str "pad.md") (Readable (bytes "x
  ```  
")) (str "x
  ```  
") _ _ _ _ _ _ _)) (str "  ") (str "  ") _ _ _);
      vm_compute; solve [reflexivity | discriminate].
  - refine (proj2 (proj2 (fence_check_strips tree_sample [str "docs"]
                            (str "py.md") (Readable (bytes "```python"))
                            (str "```python") _ _ _ _ _ _ _)) _);
      vm_compute; solve [reflexivity | discriminate].
Defined.

(** C6: a Markdown file whose text splits into no line at all, which is the
    file of zero bytes and no other, is never added to the list of
    results. *)
Theorem empty_file_not_found (fs : node) (ds : list pystr) (f : pystr)
  (x : file) (text : pystr) :
  wf_tree fs = true ->
  lookup fs (ds ++ [f]) = Some (File x) ->
  read_text x = inr text ->
  splitlines text = [] ->
  ~ In (path_of (ds ++ [f])) (scan fs) /\
  (forall found, check_file fs (path_of ds) found f = found) /\
  text = [].
Proof.
  intros Hwf Hlk Hr Hs. repeat split.
  - intros Hin. apply (scan_member _ Hwf _ _ _ Hlk) in Hin.
    destruct Hin as [_ [_ [_ [text' [Hr' [Hne _]]]]]].
    apply Hne. congruence.
  - intros found. unfold check_file.
    destruct (endswith f (str ".md")); [|reflexivity].
    pose proof (try_file_spec fs (join (path_of ds) f) found) as H.
    rewrite <- path_of_snoc, (open_read_path_of _ Hwf _ _ Hlk), Hr in H.
    rewrite <- path_of_snoc.
    destruct H as [[[Hne _] _] | [_ H]]; [contradiction | now rewrite H].
  - now apply splitlines_nil.
Qed.

(** In [tree_sample] the file of zero bytes is not found. *)
Lemma empty_file_not_found_witness :
  ~ In (path_of ([str "docs"] ++ [str "empty.md"])) (scan tree_sample).
Proof.
  refine (proj1 (empty_file_not_found tree_sample [str "docs"]
                   (str "empty.md") (Readable []) [] _ _ _ _));
    vm_compute; reflexivity.
Defined.

(** C7: the output of a run is determined by what the walk yields and by
    what reading each path gives; two runs that agree on both, as two runs
    in the same unmodified tree do, print the same text. *)
Theorem main_deterministic (fs1 fs2 : node) :
  walk (str ".") fs1 = walk (str ".") fs2 ->
  (forall path, open_read fs1 path = open_read fs2 path) ->
  main fs1 = main fs2.
Proof.
  intros Hw Ho. unfold main. f_equal. unfold scan. rewrite Hw.
  generalize (walk (str ".") fs2) as items. generalize (@nil pystr) as found.
  intros found items. revert found.
  induction items as [|[[root dirs] files] items IH]; intros found;
    [reflexivity|].
  cbn [fold_left]. rewrite <- IH. f_equal. unfold visit.
  destruct (excluded root); [reflexivity|]. clear IH.
  revert found. induction files as [|f files IHf]; intros found;
    [reflexivity|].
  cbn [fold_left]. rewrite IHf. f_equal.
  unfold check_file, try_file. now rewrite Ho.
Qed.

(** Two trees that differ in their bytes and agree on what is read. *)
Lemma main_deterministic_witness : main tree_crlf = main tree_lf.
Proof.
  refine (main_deterministic tree_crlf tree_lf _ _).
  - reflexivity.
  - intros path. unfold open_read. generalize (components path) as cs.
    intros [|c [|c' cs]]; [reflexivity | |];
      simpl; destruct (pystr_eqb c (str "a.md")); reflexivity.
Defined.



(** C9: the script, whose walk goes on below excluded directories, collects
    the same list of results, in the same order, as the loop over the
    traversal that is pruned at every excluded directory; the reason is that
    whatever lies below an excluded directory has an excluded path too. *)
Theorem scan_pruned_same (fs : node) :
  wf_tree fs = true ->
  scan fs = scan_pruned fs /\
  (forall ds rest n,
      lookup fs (ds ++ rest) = Some n ->
      excluded (path_of ds) = true ->
      excluded (path_of (ds ++ rest)) = true).
Proof.
  intros Hwf. split.
  - unfold scan, scan_pruned. rewrite !fold_visit. f_equal.
    apply (walk_pruned_same (visit fs [])) with (ds := []).
    + intros root dirs files Hx. unfold visit. now rewrite Hx.
    + exact Hwf.
    + constructor.
  - intros ds rest n Hlk Hx.
    destruct (lookup_wf _ _ _ Hwf Hlk) as [_ Hv].
    destruct (path_of_prefix _ _ Hv) as [t ->].
    now apply excluded_app.
Qed.

(** In [tree_git] both loops find [./a.md] alone. *)
Lemma scan_pruned_same_witness : scan tree_git = scan_pruned tree_git.
Proof.
  refine (proj1 (scan_pruned_same tree_git _)). vm_compute; reflexivity.
Defined.

(** C10: a directory that cannot be listed yields nothing in the walk,
    whatever it holds, and no file below it is in the list of results; the
    walk goes on with the rest: every directory that can be listed all the
    way down from the top still gets its item, and every matching file of
    such a directory is still reported; the run ends with one of the two
    shapes of output, which is the line of [no_match] when the top directory
    itself cannot be listed. *)
Theorem listing_failure_skipped (fs : node) (ds : list pystr)
  (hidden : list (pystr * node)) :
  wf_tree fs = true ->
  lookup fs ds = Some (Dir false hidden) ->
  walk (path_of ds) (Dir false hidden) = [] /\
  (forall rest x,
      lookup fs (ds ++ rest) = Some (File x) ->
      ~ In (path_of (ds ++ rest)) (scan fs)) /\
  (forall ds' es,
      listable fs ds' = true ->
      lookup fs ds' = Some (Dir true es) ->
      In (path_of ds', dirnames es, filenames es) (walk (str ".") fs)) /\
  (forall ds' f',
      listable fs ds' = true -> matching fs ds' f' ->
      In (path_of (ds' ++ [f'])) (scan fs)) /\
  output_shape (scan fs) (main fs) /\
  (ds = [] -> main fs = no_match ++ [LF]).
Proof.
  intros Hwf Hd. repeat split.
  - intros rest x Hlk Hin.
    assert (Hne : rest <> []).
    { intros ->. rewrite app_nil_r in Hlk. congruence. }
    destruct (scan_under _ Hwf _ _ _ Hlk Hne Hin) as [Hl _].
    destruct (listable_lookup _ _ Hl) as [es He]. congruence.
  - intros ds' es Hl Hlk. apply (walk_spec _ Hwf). exists ds', es. auto.
  - intros ds' f' Hl Hm. apply (scan_spec _ Hwf). now exists ds', f'.
  - apply report_shape.
  - intros ->. simpl in Hd. injection Hd as ->. reflexivity.
Qed.

(** In [tree_sample] nothing is found below [./secret], the walk still
    comes to [./docs] and [./README.md] is still reported; a top directory
    that cannot be listed gives the line of [no_match]. *)
Lemma listing_failure_skipped_witness :
  ~ In (path_of ([str "secret"] ++ [str "x.md"])) (scan tree_sample) /\
  (exists es,
      In (path_of [str "docs"], dirnames es, filenames es)
         (walk (str ".") tree_sample)) /\
  In (path_of ([] ++ [str "README.md"])) (scan tree_sample) /\
  main (Dir false []) = no_match ++ [LF].
Proof.
  destruct (listing_failure_skipped tree_sample [str "secret"]
              [(str "x.md", File (Readable (bytes "```")))])
    as [_ [Hbelow [Hwalk [Hscan _]]]];
    [vm_compute; reflexivity | vm_compute; reflexivity |].
  split; [|split; [|split]].
  - apply (Hbelow [str "x.md"] (Readable (bytes "```"))).
    vm_compute; reflexivity.
  - eexists. refine (Hwalk [str "docs"] _ _ _);
      [vm_compute; reflexivity | cbv; reflexivity].
  - apply (Hscan [] (str "README.md")); [vm_compute; reflexivity|].
    exists (Readable (bytes "# Title
Some text
```")), (str "# Title
Some text
```").
    repeat split; vm_compute; solve [reflexivity | discriminate].
  - refine (proj2 (proj2 (proj2 (proj2 (proj2
              (listing_failure_skipped (Dir false []) [] [] _ _))))) _);
      reflexivity.
Defined.

(** * Further properties: lines and white space *)

Section LineFacts.

Lemma lstrip_decompose (s : pystr) :
  exists pre, s = pre ++ lstrip s /\ forallb isspace pre = true.
Proof.
  induction s as [|c s [pre [IH1 IH2]]].
  - now exists [].
  - simpl. destruct (isspace c) eqn:E.
    + exists (c :: pre). simpl. rewrite E, IH2. split; [congruence | reflexivity].
    + now exists [].
Qed.

Lemma rstrip_decompose (s : pystr) :
  exists post, s = rstrip s ++ post /\ forallb isspace post = true.
Proof.
  unfold rstrip. destruct (lstrip_decompose (rev s)) as [pre [H1 H2]].
  exists (rev pre). split.
  - rewrite <- rev_app_distr, <- H1. now rewrite rev_involutive.
  - rewrite forallb_forall in *. intros x Hx. apply H2. now apply in_rev.
Qed.

(** Stripping takes white space away at both ends and nothing else. *)
Lemma strip_decompose (s : pystr) :
  exists pre post,
    s = pre ++ strip s ++ post /\
    forallb isspace pre = true /\ forallb isspace post = true.
Proof.
  destruct (lstrip_decompose s) as [pre [H1 H2]].
  destruct (rstrip_decompose (lstrip s)) as [post [H3 H4]].
  exists pre, post. unfold strip. rewrite <- H3. auto.
Qed.

Lemma solid_not_LF (c : N) : is_linebreak c = false -> (c =? LF)%N = false.
Proof.
  intros H. destruct (N.eqb_spec c LF) as [->|]; [discriminate | reflexivity].
Qed.

(** A piece of text without line boundary is one line, after what was read
    of the line before it. *)
Lemma splitlines_from_solid (l : pystr) :
  no_break l = true ->
  forall c line ac,
    is_linebreak c = false ->
    splitlines_from line ac (c :: l) = [rev line ++ c :: l].
Proof.
  unfold no_break. induction l as [|d l IH]; intros Hl c line ac Hc.
  - simpl. rewrite (solid_not_LF _ Hc), andb_false_r, Hc. reflexivity.
  - simpl in Hl. apply andb_true_iff in Hl. destruct Hl as [Hd Hl].
    apply negb_true_iff in Hd.
    change (splitlines_from line ac (c :: d :: l))
      with (if ac && (c =? LF)%N then splitlines_from [] false (d :: l)
            else if is_linebreak c
                 then rev line :: splitlines_from [] (c =? CR)%N (d :: l)
                 else splitlines_from (c :: line) false (d :: l)).
    rewrite (solid_not_LF _ Hc), andb_false_r, Hc, (IH Hl d _ _ Hd).
    simpl. now rewrite <- app_assoc.
Qed.

(** The same piece followed by one line boundary, at the end of the text. *)
Lemma splitlines_from_closed (l : pystr) (b : N) :
  no_break l = true -> is_linebreak b = true ->
  forall c line ac,
    is_linebreak c = false ->
    splitlines_from line ac (c :: l ++ [b]) = [rev line ++ c :: l].
Proof.
  unfold no_break. intros Hl Hb. induction l as [|d l IH]; intros c line ac Hc.
  - simpl. rewrite (solid_not_LF _ Hc), andb_false_r, Hc, Hb. reflexivity.
  - simpl in Hl. apply andb_true_iff in Hl. destruct Hl as [Hd Hl].
    apply negb_true_iff in Hd.
    change (splitlines_from line ac (c :: (d :: l) ++ [b]))
      with (if ac && (c =? LF)%N
            then splitlines_from [] false (d :: l ++ [b])
            else if is_linebreak c
                 then rev line ::
                      splitlines_from [] (c =? CR)%N (d :: l ++ [b])
                 else splitlines_from (c :: line) false (d :: l ++ [b])).
    rewrite (solid_not_LF _ Hc), andb_false_r, Hc, (IH Hl d _ _ Hd).
    simpl. now rewrite <- app_assoc.
Qed.

(** Reading up to a line boundary leaves the loop at the start of a line,
    whatever comes next. *)
Lemma splitlines_from_break (before : pystr) (b : N) :
  is_linebreak b = true ->
  forall line ac,
  exists ls ac',
    (ac' = true -> b = CR) /\
    forall rest,
      splitlines_from line ac (before ++ b :: rest) =
      ls ++ splitlines_from [] ac' rest.
Proof.
  intros Hb. induction before as [|c before IH]; intros line ac.
  - destruct (ac && (b =? LF)%N) eqn:E.
    + exists [], false. split; [discriminate|].
      intros rest. simpl. now rewrite E.
    + exists [rev line], (b =? CR)%N. split.
      * now intros H%N.eqb_eq.
      * intros rest. simpl. now rewrite E, Hb.
  - destruct (ac && (c =? LF)%N) eqn:E.
    + destruct (IH [] false) as [ls [ac' [H1 H2]]].
      exists ls, ac'. split; [assumption|].
      intros rest. simpl. rewrite E. apply H2.
    + destruct (is_linebreak c) eqn:Ec.
      * destruct (IH [] (c =? CR)%N) as [ls [ac' [H1 H2]]].
        exists (rev line :: ls), ac'. split; [assumption|].
        intros rest. simpl. rewrite E, Ec, H2. reflexivity.
      * destruct (IH (c :: line) false) as [ls [ac' [H1 H2]]].
        exists ls, ac'. split; [assumption|].
        intros rest. simpl. rewrite E, Ec. apply H2.
Qed.

Lemma line_start_split (pfx : pystr) :
  line_start pfx ->
  exists ls ac',
    (ac' = true -> exists before, pfx = before ++ [CR]) /\
    forall rest, splitlines (pfx ++ rest) = ls ++ splitlines_from [] ac' rest.
Proof.
  intros [-> | [before [b [-> Hb]]]].
  - exists [], false. split; [discriminate | reflexivity].
  - destruct (splitlines_from_break before b Hb [] false) as [ls [ac' [H1 H2]]].
    exists ls, ac'. split.
    + intros H. exists before. now rewrite (H1 H).
    + intros rest. rewrite <- app_assoc. apply H2.
Qed.

Lemma no_break_head (l : pystr) :
  l <> [] -> no_break l = true ->
  exists c l', l = c :: l' /\ is_linebreak c = false /\ no_break l' = true.
Proof.
  destruct l as [|c l']; [contradiction|]. intros _ H.
  unfold no_break in H. simpl in H. apply andb_true_iff in H.
  destruct H as [Hc Hl]. apply negb_true_iff in Hc. now exists c, l'.
Qed.

Lemma universal_newlines_lines_upto (n : nat) :
  forall s, length s <= n ->
  forall line,
    splitlines_from line false (Codec.universal_newlines s) =
    splitlines_from line false s.
Proof.
  induction n as [|n IH]; intros s Hn line.
  - destruct s; [reflexivity | simpl in Hn; lia].
  - destruct s as [|c s]; [reflexivity|].
    simpl in Hn. destruct (N.eqb_spec c CR) as [-> | Hc].
    + destruct s as [|d s].
      * reflexivity.
      * simpl in Hn. destruct (N.eqb_spec d LF) as [-> | Hd].
        -- simpl. f_equal. apply IH. lia.
        -- change (Codec.universal_newlines (CR :: d :: s))
             with (if (d =? LF)%N then LF :: Codec.universal_newlines s
                   else LF :: Codec.universal_newlines (d :: s)).
           apply N.eqb_neq in Hd. rewrite Hd.
           change (splitlines_from line false
                     (LF :: Codec.universal_newlines (d :: s)))
             with (rev line ::
                   splitlines_from [] false
                     (Codec.universal_newlines (d :: s))).
           rewrite IH by (simpl; lia).
           change (splitlines_from line false (CR :: d :: s))
             with (rev line :: splitlines_from [] true (d :: s)).
           f_equal. simpl. now rewrite Hd.
    + apply N.eqb_neq in Hc.
      change (Codec.universal_newlines (c :: s))
        with (if (c =? CR)%N
              then match s with
                   | d :: s'' =>
                       if (d =? LF)%N
                       then LF :: Codec.universal_newlines s''
                       else LF :: Codec.universal_newlines s
                   | [] => [LF]
                   end
              else c :: Codec.universal_newlines s).
      rewrite Hc. simpl. rewrite Hc.
      destruct (is_linebreak c); [f_equal|]; apply IH; lia.
Qed.

Lemma universal_newlines_no_CR (s : pystr) :
  forall n, length s <= n -> ~ In CR (Codec.universal_newlines s).
Proof.
  intros n. revert s. induction n as [|n IH]; intros s Hn.
  - destruct s; [intros [] | simpl in Hn; lia].
  - destruct s as [|c s]; [intros []|]. simpl in Hn.
    simpl. destruct (N.eqb_spec c CR) as [-> | Hc].
    + destruct s as [|d s].
      * intros [H | []]. discriminate.
      * simpl in Hn. destruct (d =? LF)%N.
        -- intros [H | H]; [discriminate | revert H; apply IH; lia].
        -- intros [H | H]; [discriminate|]. revert H. apply IH. simpl. lia.
    + intros [H | H]; [congruence|]. revert H. apply IH. lia.
Qed.

End LineFacts.

(** X1: a line passes the test of line 15 exactly when it is the fence with
    nothing but white space before and after it. *)
Theorem fence_line_shape (l : pystr) :
  strip l = fence <->
  exists pre post,
    forallb isspace pre = true /\ forallb isspace post = true /\
    l = pre ++ fence ++ post.
Proof.
  split.
  - intros H. destruct (strip_decompose l) as [pre [post [H1 [H2 H3]]]].
    exists pre, post. rewrite H in H1. auto.
  - intros [pre [post [H1 [H2 ->]]]].
    apply (strip_padded pre post [96%N] 96%N 96%N); auto.
Qed.

(** X2: only the last line counts.  Whatever the text before it, a last
    line without terminator decides alone, and one line boundary after it
    changes nothing. *)
Theorem last_line_decides (pfx l : pystr) :
  line_start pfx -> l <> [] -> no_break l = true ->
  (trailing_fence (pfx ++ l) <-> strip l = fence) /\
  (forall b, is_linebreak b = true ->
             (trailing_fence (pfx ++ l ++ [b]) <-> strip l = fence)).
Proof.
  intros Hp Hne Hl.
  destruct (line_start_split pfx Hp) as [ls [ac' [_ Hs]]].
  destruct (no_break_head l Hne Hl) as [c [l' [-> [Hc Hl']]]].
  unfold trailing_fence. split; [|intros b Hb].
  - rewrite Hs, (splitlines_from_solid l' Hl' c [] ac' Hc). simpl rev.
    rewrite last_last. cbn [app]. split; [tauto|].
    intros H. split; [|assumption]. now destruct ls.
  - change ((c :: l') ++ [b]) with (c :: l' ++ [b]).
    rewrite Hs, (splitlines_from_closed l' b Hl' Hb c [] ac' Hc). simpl rev.
    rewrite last_last. cbn [app]. split; [tauto|].
    intros H. split; [|assumption]. now destruct ls.
Qed.

(** A title, then the fence: with and without a final line feed. *)
Lemma last_line_decides_witness :
  trailing_fence (str "# Title
" ++ str " ```") /\
  trailing_fence (str "# Title
" ++ str " ```" ++ [LF]).
Proof.
  destruct (last_line_decides (str "# Title
") (str " ```")) as [H1 H2].
  - right. exists (str "# Title"), LF. split; reflexivity.
  - discriminate.
  - reflexivity.
  - split.
    + apply H1. reflexivity.
    + apply (H2 LF); reflexivity.
Defined.

(** X3: a text that ends with an empty line is never accepted: after two
    line boundaries at the end that are not one [\r\n], the last line is
    empty, whatever the line before it. *)
Theorem blank_last_line_rejected (t : pystr) (b1 b2 : N) :
  is_linebreak b1 = true -> is_linebreak b2 = true -> b1 <> CR ->
  last (splitlines (t ++ [b1; b2])) [] = [] /\
  ~ trailing_fence (t ++ [b1; b2]).
Proof.
  intros H1 H2 Hcr.
  assert (Hp : line_start (t ++ [b1])) by (right; now exists t, b1).
  destruct (line_start_split _ Hp) as [ls [ac' [Hac Hs]]].
  assert (ac' = false) as ->.
  { destruct ac'; [|reflexivity]. destruct (Hac eq_refl) as [before H].
    apply app_inj_tail in H. destruct H as [_ H]. contradiction. }
  assert (Hlast : last (splitlines (t ++ [b1; b2])) [] = []).
  { change (t ++ [b1; b2]) with (t ++ [b1] ++ [b2]).
    rewrite app_assoc, Hs. simpl. rewrite H2. simpl. apply last_last. }
  split; [exact Hlast|].
  intros [_ H]. rewrite Hlast in H. discriminate H.
Qed.

(** The fence followed by an empty line. *)
Lemma blank_last_line_rejected_witness :
  ~ trailing_fence (str "```" ++ [LF; LF]).
Proof.
  refine (proj2 (blank_last_line_rejected (str "```") LF LF _ _ _));
    solve [reflexivity | discriminate].
Defined.

(** X4: the lines the script sees are those of the decoded text, whether
    its lines end with [\n], [\r\n] or [\r]; the text it gets has no
    carriage return left. *)
Theorem newline_convention_irrelevant (content : list Byte.byte) (s : pystr) :
  Codec.decode_utf8 (map Byte.to_N content) = Some s ->
  exists text,
    read_text (Readable content) = inr text /\
    splitlines text = splitlines s /\
    ~ In CR text.
Proof.
  intros H. exists (Codec.universal_newlines s). repeat split.
  - unfold read_text. now rewrite H.
  - apply (universal_newlines_lines_upto (length s)). lia.
  - apply (universal_newlines_no_CR s (length s)). lia.
Qed.

(** A text with the line terminators of Windows. *)
Lemma newline_convention_irrelevant_witness :
  exists text,
    read_text (Readable (bytes "a" ++ [Byte.x0d; Byte.x0a] ++ bytes "```"))
    = inr text /\
    splitlines text = splitlines [97; 13; 10; 96; 96; 96]%N /\
    ~ In CR text.
Proof.
  refine (newline_convention_irrelevant
            (bytes "a" ++ [Byte.x0d; Byte.x0a] ++ bytes "```")
            [97; 13; 10; 96; 96; 96]%N _).
  reflexivity.
Defined.

(** * Further properties: the output and the paths *)

Section ReportFacts.

Lemma not_in_existsb (c : N) (s : pystr) :
  existsb (N.eqb c) s = false -> ~ In c s.
Proof.
  intros H Hin. assert (existsb (N.eqb c) s = true); [|congruence].
  apply existsb_exists. exists c. split; [assumption | apply N.eqb_refl].
Qed.

Lemma split_printed (found : list pystr) :
  Forall (fun p => ~ In LF p) found ->
  split LF (flat_map (fun p => p ++ [LF]) found) = found ++ [[]].
Proof.
  induction 1 as [|p found Hp _ IH]; [reflexivity|].
  cbn [flat_map]. rewrite <- app_assoc. cbn [app].
  rewrite split_app, IH, (split_whole LF p Hp). reflexivity.
Qed.

Lemma split_report (found : list pystr) :
  Forall (fun p => ~ In LF p) found ->
  split LF (report found) =
  match found with
  | [] => [no_match; []]
  | _ :: _ => header :: found ++ [[]]
  end.
Proof.
  intros H. destruct (report_shape found) as [[-> ->] | [Hne ->]].
  - rewrite split_app, split_whole; [reflexivity|].
    apply not_in_existsb. reflexivity.
  - destruct found as [|p found]; [contradiction|].
    cbn [app]. rewrite split_app, (split_printed _ H), split_whole;
      [reflexivity|].
    apply not_in_existsb. reflexivity.
Qed.

End ReportFacts.

(** X5: the output can be read back.  When no path has a line feed in it,
    splitting the output at line feeds gives the line of [no_match] or the
    header followed by the paths, and then the empty string after the last
    line feed; so two different lists of results never print the same
    text. *)
Theorem report_read_back (found : list pystr) :
  Forall (fun p => ~ In LF p) found ->
  split LF (report found) =
  match found with
  | [] => [no_match; []]
  | _ :: _ => header :: found ++ [[]]
  end /\
  (forall found',
      Forall (fun p => ~ In LF p) found' ->
      report found' = report found -> found' = found).
Proof.
  intros H. split; [now apply split_report|].
  intros found' H' E. apply (f_equal (split LF)) in E.
  rewrite (split_report _ H), (split_report _ H') in E.
  destruct found as [|p found], found' as [|p' found'];
    try reflexivity; try discriminate E.
  injection E as Ep E. apply app_inv_tail in E. now rewrite Ep, E.
Qed.

(** The output for two paths. *)
Lemma report_read_back_witness :
  split LF (report [str "./a.md"; str "./docs/b.md"]) =
  [header; str "./a.md"; str "./docs/b.md"; []].
Proof.
  refine (proj1 (report_read_back [str "./a.md"; str "./docs/b.md"] _)).
  repeat constructor; apply not_in_existsb; reflexivity.
Defined.

(** X6: every path in the list of results is relative to the top, starts
    with [./], ends with [.md], and opening it again gives a text that ends
    with the fence. *)
Theorem reported_path_sound (fs : node) (p : pystr) :
  wf_tree fs = true ->
  In p (scan fs) ->
  startswith p (str "./") = true /\
  endswith p (str ".md") = true /\
  exists text, open_read fs p = inr text /\ trailing_fence text.
Proof.
  intros Hwf Hin. apply (scan_spec _ Hwf) in Hin.
  destruct Hin as [ds [f [-> [_ [x [text [Hlk [Hmd [_ [Hr Ht]]]]]]]]]].
  destruct (lookup_wf _ _ _ Hwf Hlk) as [_ Hv].
  repeat split.
  - rewrite (path_of_render _ Hv), render_snoc. unfold render.
    destruct ds as [|d ds]; reflexivity.
  - rewrite (path_of_render _ Hv), render_snoc.
    apply endswith_spec in Hmd. destruct Hmd as [a ->].
    apply endswith_spec. exists (render ds ++ sep :: a).
    now rewrite <- app_assoc.
  - exists text. now rewrite (open_read_path_of _ Hwf _ _ Hlk).
Qed.

(** The first path found in [tree_sample]. *)
Lemma reported_path_sound_witness :
  startswith (str "./README.md") (str "./") = true /\
  endswith (str "./README.md") (str ".md") = true /\
  exists text,
    open_read tree_sample (str "./README.md") = inr text /\
    trailing_fence text.
Proof.
  refine (reported_path_sound tree_sample (str "./README.md") _ _).
  - vm_compute; reflexivity.
  - vm_compute. left. reflexivity.
Defined.

(** X7: the scan opens nothing but the [.md] entries of the directories
    that the walk lists and that are not excluded: two trees with the same
    walk that read the same there give the same list of results, whatever
    their other files hold. *)
Theorem scan_reads_only_candidates (fs1 fs2 : node) :
  walk (str ".") fs1 = walk (str ".") fs2 ->
  (forall root dirs files f,
      In (root, dirs, files) (walk (str ".") fs1) ->
      excluded root = false ->
      In f files ->
      endswith f (str ".md") = true ->
      open_read fs1 (join root f) = open_read fs2 (join root f)) ->
  scan fs1 = scan fs2.
Proof.
  intros Hw Ho. rewrite !scan_flat, <- Hw.
  apply flat_map_same_in. intros [[root dirs] files] Hin.
  unfold visit. destruct (excluded root) eqn:Hx; [reflexivity|].
  rewrite !fold_check_file. f_equal.
  apply flat_map_same_in. intros f Hf.
  unfold check_file. destruct (endswith f (str ".md")) eqn:Hmd; [|reflexivity].
  unfold try_file. now rewrite (Ho root dirs files f Hin Hx Hf Hmd).
Qed.

(** The two trees [tree_noise_a] and [tree_noise_b]. *)
Lemma scan_reads_only_candidates_witness :
  scan tree_noise_a = scan tree_noise_b.
Proof.
  refine (scan_reads_only_candidates tree_noise_a tree_noise_b _ _).
  - reflexivity.
  - intros root dirs files f Hin Hx Hf Hmd.
    vm_compute in Hin. destruct Hin as [H | [H | []]]; injection H as <- <- <-.
    + destruct Hf as [<- | [<- | []]].
      * reflexivity.
      * vm_compute in Hmd. discriminate Hmd.
    + vm_compute in Hx. discriminate Hx.
Defined.

Section ExclusionFacts.

Variable sub : pystr.
Hypothesis sub_no_sep : ~ In sep sub.
Hypothesis sub_not_empty : sub <> [].

(** A substring without separator lies on one side of a separator. *)
Lemma contains_across_sep (a b : pystr) :
  contains sub (a ++ sep :: b) = true <->
  contains sub a = true \/ contains sub b = true.
Proof.
  rewrite !contains_spec. split.
  - intros [x [y H]]. apply app_eq_app in H.
    destruct H as [l [[Ha Hl] | [Hx Hl]]].
    + symmetry in Hl. apply app_eq_app in Hl.
      destruct Hl as [l' [[Hl1 Hl2] | [Hs Hl2]]].
      * left. exists x, l'. now rewrite Ha, Hl1.
      * destruct l' as [|c l'].
        -- left. exists x, []. rewrite Ha, Hs. now rewrite !app_nil_r.
        -- exfalso. injection Hl2 as <- _. apply sub_no_sep.
           rewrite Hs. apply in_or_app. right. now left.
    + destruct l as [|c l].
      * exfalso. simpl in Hl. destruct sub as [|c0 sub0]; [now apply sub_not_empty|].
        injection Hl as <- _. apply sub_no_sep. now left.
      * right. injection Hl as _ ->. now exists l, y.
  - intros [[x [y ->]] | [x [y ->]]].
    + exists x, (y ++ sep :: b). now rewrite <- !app_assoc.
    + exists (a ++ sep :: x), y. now rewrite <- app_assoc.
Qed.

Lemma contains_joined (ds : list pystr) (s : pystr) :
  contains sub (s ++ flat_map (cons sep) ds) = true <->
  contains sub s = true \/ Exists (fun d => contains sub d = true) ds.
Proof.
  revert s. induction ds as [|d ds IH]; intros s.
  - simpl. rewrite app_nil_r. split; [auto|].
    intros [H | H]; [assumption | inversion H].
  - cbn [flat_map].
    change (s ++ (sep :: d) ++ flat_map (cons sep) ds)
      with (s ++ [sep] ++ d ++ flat_map (cons sep) ds).
    replace (s ++ [sep] ++ d ++ flat_map (cons sep) ds)
      with ((s ++ sep :: d) ++ flat_map (cons sep) ds)
      by (now rewrite <- app_assoc).
    rewrite IH, contains_across_sep, Exists_cons. tauto.
Qed.

End ExclusionFacts.

Lemma excluded_render (ds : list pystr) :
  excluded (render ds) = true <-> Exists (fun d => excluded d = true) ds.
Proof.
  unfold excluded, render. rewrite !orb_true_iff.
  rewrite !contains_joined
    by first [ apply not_in_existsb; reflexivity | discriminate ].
  rewrite !Exists_exists. split.
  - intros [[[H | [d [H1 H2]]] | [H | [d [H1 H2]]]] | [H | [d [H1 H2]]]];
      try discriminate H; exists d; rewrite !orb_true_iff; auto.
  - intros [d [H1 H2]]. rewrite !orb_true_iff in H2.
    destruct H2 as [[H2 | H2] | H2]; eauto 7.
Qed.

(** X8: a directory is excluded exactly when one of the names on the way to
    it, from the top, has [.git], [node_modules] or [.venv] somewhere in
    it; the test never matches across a separator, and never on the top
    itself. *)
Theorem excluded_iff_name (fs n : node) (ds : list pystr) :
  wf_tree fs = true ->
  lookup fs ds = Some n ->
  excluded (path_of ds) = true <-> Exists (fun d => excluded d = true) ds.
Proof.
  intros Hwf Hlk. destruct (lookup_wf _ _ _ Hwf Hlk) as [_ Hv].
  rewrite (path_of_render _ Hv). apply excluded_render.
Qed.

(** The directory [.git] of [tree_git] and the one below it. *)
Lemma excluded_iff_name_witness :
  excluded (path_of [str ".git"; str "objects"]) = true <->
  Exists (fun d => excluded d = true) [str ".git"; str "objects"].
Proof.
  refine (excluded_iff_name tree_git (Dir true _)
            [str ".git"; str "objects"] _ _);
    vm_compute; reflexivity.
Defined.

(** * Further properties: no path twice *)

Section NoDupFacts.

Lemma map_flat_map {A B C : Type} (h : B -> C) (k : A -> list B)
  (l : list A) :
  map h (flat_map k l) = flat_map (fun a => map h (k a)) l.
Proof.
  induction l as [|a l IH]; simpl; [reflexivity|].
  now rewrite map_app, IH.
Qed.

Lemma candidates_cons (root : pystr) (dirs files : list pystr)
  (items : list walk_item) :
  candidates ((root, dirs, files) :: items) =
  map (join root) files ++ candidates items.
Proof.
  unfold candidates. cbn [entries_of flat_map].
  now rewrite map_app, map_map.
Qed.

Lemma candidates_flat_map {A : Type} (k : A -> list walk_item) (l : list A) :
  candidates (flat_map k l) = flat_map (fun a => candidates (k a)) l.
Proof.
  unfold candidates, entries_of.
  now rewrite flat_map_nested, map_flat_map.
Qed.

Lemma filenames_valid (l : bool) (es : list (pystr * node)) (f : pystr) :
  wf_tree (Dir l es) = true -> In f (filenames es) -> valid_name f = true.
Proof.
  intros Hwf Hin. apply wf_tree_dir in Hwf. destruct Hwf as [Hv _].
  rewrite Forall_forall in Hv. apply Hv.
  unfold filenames in Hin. apply in_map_iff in Hin.
  destruct Hin as [e [<- He]]. apply filter_In in He.
  apply in_map. tauto.
Qed.

(** The paths the loops build are the rendered ways to the files. *)
Lemma candidates_walk (n : node) :
  wf_tree n = true ->
  forall ds0, Forall (fun d => valid_name d = true) ds0 ->
  candidates (walk (render ds0) n) =
  map (fun cs => render (ds0 ++ cs)) (file_ways n).
Proof.
  induction n as [f | l es IH] using node_rect_entries; intros Hwf ds0 Hds0.
  - reflexivity.
  - destruct l; [|reflexivity]. cbn [walk file_ways].
    rewrite candidates_cons, candidates_flat_map, map_app, map_map,
      map_flat_map.
    f_equal.
    + apply map_ext_in. intros f Hf.
      apply join_render; [assumption|]. now apply (filenames_valid true es).
    + pose proof (wf_tree_dir _ _ Hwf) as [Hv [_ Hc]].
      rewrite Forall_forall in IH, Hv.
      apply flat_map_same_in. intros [name child] Hin.
      destruct (is_dir child); [|reflexivity].
      assert (Hn : valid_name name = true)
        by (apply Hv; apply (in_map fst) in Hin; exact Hin).
      rewrite join_render by assumption.
      rewrite (IH _ Hin (Hc _ _ Hin)) by (apply Forall_app; auto).
      rewrite map_map. apply map_ext. intros cs.
      now rewrite <- app_assoc.
Qed.

Lemma file_ways_valid (n : node) :
  wf_tree n = true ->
  forall cs, In cs (file_ways n) ->
             cs <> [] /\ Forall (fun d => valid_name d = true) cs.
Proof.
  induction n as [f | l es IH] using node_rect_entries; intros Hwf cs Hin.
  - contradiction.
  - destruct l; [|contradiction]. cbn [file_ways] in Hin.
    apply in_app_or in Hin. destruct Hin as [Hin | Hin].
    + apply in_map_iff in Hin. destruct Hin as [f [<- Hf]].
      split; [discriminate|]. constructor; [|constructor].
      now apply (filenames_valid true es).
    + pose proof (wf_tree_dir _ _ Hwf) as [Hv [_ Hc]].
      rewrite Forall_forall in IH, Hv.
      apply in_flat_map in Hin. destruct Hin as [[name child] [He Hin]].
      destruct (is_dir child); [|contradiction].
      apply in_map_iff in Hin. destruct Hin as [cs' [<- Hcs']].
      split; [discriminate|]. constructor.
      * apply Hv. apply (in_map fst) in He. exact He.
      * now apply (IH _ He (Hc _ _ He)).
Qed.

Lemma NoDup_names_filter (q : pystr * node -> bool)
  (es : list (pystr * node)) :
  NoDup (map fst es) -> NoDup (map fst (filter q es)).
Proof.
  induction es as [|e es IH]; simpl; intros H; [constructor|].
  inversion_clear H as [|? ? Hn Hnd]. destruct (q e); [|auto].
  simpl. constructor; [|auto]. intros Hin. apply Hn.
  apply in_map_iff in Hin. destruct Hin as [e' [<- He']].
  apply filter_In in He'. apply in_map. tauto.
Qed.

Lemma NoDup_map_injective {A B : Type} (h : A -> B) (l : list A) :
  (forall x y, In x l -> In y l -> h x = h y -> x = y) ->
  NoDup l -> NoDup (map h l).
Proof.
  intros Hinj H. apply NoDup_map_NoDup_ForallPairs; [|assumption].
  intros x y Hx Hy. now apply Hinj.
Qed.

(** The ways to the files below distinct names are distinct. *)
Lemma file_ways_below_NoDup (es : list (pystr * node)) :
  NoDup (map fst es) ->
  (forall k c, In (k, c) es -> NoDup (file_ways c)) ->
  NoDup (flat_map (fun e => let '(name, child) := e in
                            if is_dir child
                            then map (cons name) (file_ways child)
                            else [])
                  es).
Proof.
  induction es as [|[name child] es IH]; intros Hnd Hc; [constructor|].
  inversion_clear Hnd as [|? ? Hn Hnd']. cbn [flat_map].
  apply NoDup_app.
  - destruct (is_dir child); [|constructor].
    apply NoDup_map_injective; [|apply (Hc name child); now left].
    intros x y _ _ H. now injection H.
  - apply IH; [assumption|]. intros k c Hin. apply (Hc k c). now right.
  - intros cs H1 H2. apply Hn. simpl.
    destruct (is_dir child); [|contradiction].
    apply in_map_iff in H1. destruct H1 as [cs1 [<- _]].
    apply in_flat_map in H2. destruct H2 as [[name' child'] [He H2]].
    destruct (is_dir child'); [|contradiction].
    apply in_map_iff in H2. destruct H2 as [cs2 [E _]].
    injection E as -> _. apply (in_map fst) in He. exact He.
Qed.

Lemma file_ways_NoDup (n : node) : wf_tree n = true -> NoDup (file_ways n).
Proof.
  induction n as [f | l es IH] using node_rect_entries; intros Hwf.
  - constructor.
  - destruct l; [|constructor]. cbn [file_ways].
    pose proof (wf_tree_dir _ _ Hwf) as [_ [Hnd Hc]].
    rewrite Forall_forall in IH.
    apply NoDup_app.
    + apply NoDup_map_injective.
      * intros x y _ _ H. now injection H.
      * unfold filenames. now apply NoDup_names_filter.
    + apply file_ways_below_NoDup; [assumption|].
      intros k c Hin. apply (IH _ Hin). exact (Hc _ _ Hin).
    + intros cs H1 H2.
      apply in_map_iff in H1. destruct H1 as [f [<- _]].
      apply in_flat_map in H2. destruct H2 as [[name child] [He H2]].
      destruct (is_dir child); [|contradiction].
      apply in_map_iff in H2. destruct H2 as [cs' [E Hcs']].
      injection E as _ ->.
      destruct (file_ways_valid child (Hc _ _ He) [] Hcs') as [H _].
      now apply H.
Qed.

(** Keeping at most the image of each element of a list without repeated
    images gives a list without repetition. *)
Lemma NoDup_flat_map_select {A B : Type} (g : A -> B) (F : A -> list B)
  (l : list A) :
  (forall a, In a l -> F a = [] \/ F a = [g a]) ->
  NoDup (map g l) -> NoDup (flat_map F l).
Proof.
  induction l as [|a l IH]; intros HF H; [constructor|].
  simpl in H. inversion_clear H as [|? ? Hn Hnd]. cbn [flat_map].
  assert (Hl : NoDup (flat_map F l)).
  { apply IH; [|assumption]. intros b Hb. apply HF. now right. }
  destruct (HF a (or_introl eq_refl)) as [-> | ->]; [assumption|].
  simpl. constructor; [|assumption].
  intros Hin. apply Hn. apply in_flat_map in Hin.
  destruct Hin as [b [Hb Hin]]. apply in_map_iff. exists b.
  destruct (HF b (or_intror Hb)) as [E | E]; rewrite E in Hin.
  - contradiction.
  - destruct Hin as [<- | []]. auto.
Qed.

Lemma visit_select (fs : node) (items : list walk_item) :
  flat_map (visit fs []) items =
  flat_map (fun rf => if excluded (fst rf) then []
                      else check_file fs (fst rf) [] (snd rf))
           (entries_of items).
Proof.
  unfold entries_of. rewrite flat_map_nested.
  apply flat_map_same_in. intros [[root dirs] files] _.
  unfold visit. destruct (excluded root) eqn:Hx.
  - induction files as [|f files IH]; [reflexivity|].
    simpl. now rewrite Hx.
  - rewrite fold_check_file. simpl.
    induction files as [|f files IH]; [reflexivity|].
    simpl. now rewrite Hx, IH.
Qed.

Lemma check_file_select (fs : node) (root f : pystr) :
  check_file fs root [] f = [] \/ check_file fs root [] f = [join root f].
Proof.
  unfold check_file. destruct (endswith f (str ".md")); [|now left].
  pose proof (try_file_spec fs (join root f) []) as H.
  destruct (open_read fs (join root f)) as [e | text].
  - rewrite H. now left.
  - destruct H as [[_ H] | [_ H]]; rewrite H; [now right | now left].
Qed.

End NoDupFacts.

(** X9: no path is in the list of results twice. *)
Theorem scan_NoDup (fs : node) : wf_tree fs = true -> NoDup (scan fs).
Proof.
  intros Hwf. rewrite scan_flat, visit_select.
  apply (NoDup_flat_map_select (fun rf => join (fst rf) (snd rf))).
  - intros [root f] _. simpl. destruct (excluded root); [now left|].
    apply check_file_select.
  - change (NoDup (candidates (walk (render []) fs))).
    rewrite (candidates_walk fs Hwf []) by constructor.
    apply NoDup_map_injective; [|now apply file_ways_NoDup].
    intros x y Hx Hy H. simpl in H.
    apply (f_equal components) in H.
    rewrite !components_render in H;
      [assumption | now apply (file_ways_valid fs Hwf)
                  | now apply (file_ways_valid fs Hwf)].
Qed.

(** The list of results of [tree_sample]. *)
Lemma scan_NoDup_witness : NoDup (scan tree_sample).
Proof. refine (scan_NoDup tree_sample _). vm_compute; reflexivity. Defined.

(** X10: what the walk lists is what the script opens.  For every item of
    the walk, the path joined from [root] and a name of [files] leads to
    that very file of the tree, and opening it reads that file. *)
Theorem walk_entries_resolve (fs : node) (root : pystr)
  (dirs files : list pystr) :
  wf_tree fs = true ->
  In (root, dirs, files) (walk (str ".") fs) ->
  exists ds,
    root = path_of ds /\
    listable fs ds = true /\
    (forall f, In f files ->
               exists x, lookup fs (ds ++ [f]) = Some (File x) /\
                         join root f = path_of (ds ++ [f]) /\
                         open_read fs (join root f) = read_text x).
Proof.
  intros Hwf Hin. apply (walk_spec _ Hwf) in Hin.
  destruct Hin as [ds [es [Hl [Hd [-> [-> ->]]]]]].
  exists ds. repeat split; [assumption|].
  intros f Hf.
  destruct (lookup_wf _ _ _ Hwf Hd) as [Hwd _].
  apply wf_tree_dir in Hwd. destruct Hwd as [_ [Hnd _]].
  apply (filenames_spec _ _ Hnd) in Hf. destruct Hf as [x Hf].
  assert (Hlk : lookup fs (ds ++ [f]) = Some (File x)).
  { rewrite lookup_app, Hd. simpl. now rewrite Hf. }
  exists x. split; [assumption|].
  change (fold_left join ds (str ".")) with (path_of ds).
  rewrite <- path_of_snoc. split; [reflexivity|].
  now apply open_read_path_of.
Qed.

(** The item of the walk of [tree_git] for its top directory. *)
Lemma walk_entries_resolve_witness :
  exists ds,
    str "." = path_of ds /\
    listable tree_git ds = true /\
    (forall f, In f [str "a.md"] ->
               exists x, lookup tree_git (ds ++ [f]) = Some (File x) /\
                         join (str ".") f = path_of (ds ++ [f]) /\
                         open_read tree_git (join (str ".") f) = read_text x).
Proof.
  refine (walk_entries_resolve tree_git (str ".") [str ".git"] [str "a.md"]
            _ _).
  - vm_compute; reflexivity.
  - left. reflexivity.
Defined.
